(** * Asynchronous task utilities of [CoreUtilsProvider]

    A shallow embedding of the promise helpers of
    [src/core/services/utils/utils.ts] ([allPromises],
    [allPromisesIgnoringErrors], [ignoreErrors], [executeOrderedPromises],
    [timeoutPromise], [promiseDefer], [getUniqueId]) together with the part
    of the JavaScript run time they rely on: values and their truthiness,
    promises, timers and plain objects used as maps. *)

From Stdlib Require Import ZArith Lia.
From stdpp Require Import gmap strings list fin_maps.

Open Scope string_scope.
Open Scope list_scope.

(** ** JavaScript values *)

(** Numbers are the integers (exact in a double below 2^53) and [NaN].
    Values are the primitives and plain objects; functions and promises are
    not among them, so a value is never a thenable. *)
Inductive JSNumber : Type :=
| Num (n : Z)
| NaN.

#[local] Set Warnings "-register-all".
Inductive JSValue : Type :=
| VUndefined
| VNull
| VBool (b : bool)
| VNumber (n : JSNumber)
| VString (s : string)
| VObject (props : list (string * JSValue)).

(** [ToBoolean]: what [!!v] and [if (v)] test. *)
Definition number_truthy (n : JSNumber) : bool :=
  match n with
  | Num z => negb (Z.eqb z 0)
  | NaN => false
  end.

Definition truthy (v : JSValue) : bool :=
  match v with
  | VUndefined | VNull => false
  | VBool b => b
  | VNumber n => number_truthy n
  | VString s => negb (String.eqb s "")
  | VObject _ => true
  end.

(** The result of running synchronous code: a value, or a [throw]. *)
Inductive Completion (A : Type) : Type :=
| Normal (a : A)
| Abrupt (thrown : JSValue).
Arguments Normal {A} a.
Arguments Abrupt {A} thrown.

Definition TypeError (message : string) : JSValue :=
  VObject [("name", VString "TypeError"); ("message", VString message)].

Definition new_Error (message : string) : JSValue :=
  VObject [("message", VString message)].

Fixpoint own_property (props : list (string * JSValue)) (key : string) : JSValue :=
  match props with
  | [] => VUndefined
  | (k, v) :: rest => if String.eqb k key then v else own_property rest key
  end.

(** [e.message]: reading a property of [undefined] or [null] throws a
    [TypeError]; primitives have no [message]; objects give the stored one. *)
Definition get_message (e : JSValue) : Completion JSValue :=
  match e with
  | VUndefined => Abrupt (TypeError "Cannot read properties of undefined (reading 'message')")
  | VNull => Abrupt (TypeError "Cannot read properties of null (reading 'message')")
  | VObject props => Normal (own_property props "message")
  | VBool _ | VNumber _ | VString _ => Normal VUndefined
  end.

(** ** getUniqueId

    [uniqueIds] is the object literal [{}]: its own properties are the
    counters the function stored, and a key it does not own is looked up on
    [Object.prototype]. *)

Definition Object_prototype_keys : list string :=
  ["constructor"; "__defineGetter__"; "__defineSetter__"; "hasOwnProperty";
   "__lookupGetter__"; "__lookupSetter__"; "isPrototypeOf";
   "propertyIsEnumerable"; "toString"; "valueOf"; "__proto__";
   "toLocaleString"].

Definition inherited (name : string) : bool :=
  bool_decide (name ∈ Object_prototype_keys).

(** What [this.uniqueIds[name]] evaluates to. *)
Inductive PropValue : Type :=
| PUndefined
| PNumber (n : JSNumber)
| PInherited.

Definition get_property (o : gmap string JSNumber) (name : string) : PropValue :=
  match o !! name with
  | Some n => PNumber n
  | None => if inherited name then PInherited else PUndefined
  end.

(** [this.uniqueIds[name] = n]: an own property is created or updated; the
    [__proto__] setter ignores a value that is not an object. *)
Definition set_property (o : gmap string JSNumber) (name : string) (n : JSNumber)
  : gmap string JSNumber :=
  if bool_decide (name = "__proto__") then o else <[name:=n]> o.

Definition prop_truthy (p : PropValue) : bool :=
  match p with
  | PUndefined => false
  | PNumber n => number_truthy n
  | PInherited => true
  end.

(** [ToNumber] of the operand of [++]: a function or a plain object is [NaN]. *)
Definition prop_to_number (p : PropValue) : JSNumber :=
  match p with
  | PUndefined => NaN
  | PNumber n => n
  | PInherited => NaN
  end.

Definition increment (n : JSNumber) : JSNumber :=
  match n with
  | Num z => Num (z + 1)%Z
  | NaN => NaN
  end.

Definition getUniqueId (name : string) (uniqueIds : gmap string JSNumber)
  : JSNumber * gmap string JSNumber :=
  let uniqueIds :=
    if negb (prop_truthy (get_property uniqueIds name))
    then set_property uniqueIds name (Num 0)
    else uniqueIds in
  let id := increment (prop_to_number (get_property uniqueIds name)) in
  (id, set_property uniqueIds name id).

(** A sequence of calls on the shared registry, with the ids returned. *)
Fixpoint getUniqueIds (names : list string) (uniqueIds : gmap string JSNumber)
  : list JSNumber * gmap string JSNumber :=
  match names with
  | [] => ([], uniqueIds)
  | name :: rest =>
      let '(id, uniqueIds) := getUniqueId name uniqueIds in
      let '(ids, uniqueIds) := getUniqueIds rest uniqueIds in
      (id :: ids, uniqueIds)
  end.

(** ** Promises

    Time is the clock of the event loop.  A promise is described by when it
    settles and how, or by the fact that it never does; the microtask hops
    between a settlement and its reactions take no time on this clock. *)

Definition Time := nat.

Inductive Outcome (A : Type) : Type :=
| Fulfilled (value : A)
| Rejected (reason : JSValue).
Arguments Fulfilled {A} value.
Arguments Rejected {A} reason.

Inductive Promise (A : Type) : Type :=
| Settles (time : Time) (outcome : Outcome A)
| Forever.
Arguments Settles {A} time outcome.
Arguments Forever {A}.

Definition settled_by {A} (t : Time) (p : Promise A) : Prop :=
  match p with
  | Settles time _ => time <= t
  | Forever => False
  end.

Definition rejects {A} (p : Promise A) : Prop :=
  match p with
  | Settles _ (Rejected _) => True
  | _ => False
  end.

(** [Promise.resolve(value)] evaluated at [now]. *)
Definition Promise_resolve {A} (now : Time) (value : A) : Promise A :=
  Settles now (Fulfilled value).

(** The body of an [async] function: started at a time, it gives the promise
    the call returns. *)
Definition Async (A : Type) : Type := Time -> Promise A.

Definition async_return {A} (a : A) : Async A :=
  fun now => Settles now (Fulfilled a).

Definition async_throw {A} (error : JSValue) : Async A :=
  fun now => Settles now (Rejected error).

(** [try { x = await promise; body } catch (error) { handler }] *)
Definition try_await {A B} (promise : Promise A)
    (body : A -> Async B) (handler : JSValue -> Async B) : Async B :=
  fun now =>
    match promise with
    | Forever => Forever
    | Settles t (Fulfilled a) => body a (Nat.max now t)
    | Settles t (Rejected error) => handler error (Nat.max now t)
    end.

Definition await {A B} (promise : Promise A) (body : A -> Async B) : Async B :=
  try_await promise body async_throw.

(** [return promise] in an [async] function adopts the promise. *)
Definition async_return_promise {A} (promise : Promise A) : Async A :=
  await promise async_return.

(** Calling an [async] function (or any function that returns a promise) in
    the middle of another one. *)
Definition call {A B} (f : Async A) (k : Promise A -> Async B) : Async B :=
  fun now => k (f now) now.

Notation "'let_await' x ':=' p 'in' k" := (await p (fun x => k))
  (at level 10, x pattern, p at level 100, k at level 200, only parsing).
Notation "'let_call' x ':=' f 'in' k" := (call f (fun x => k))
  (at level 10, x pattern, f at level 100, k at level 200, only parsing).

(** [Promise.all]: rejects as soon as one input rejects (the earliest one,
    the first in the array among equals); otherwise fulfils with all the
    values once the last input has fulfilled. *)
Fixpoint first_rejection {A} (promises : list (Promise A)) : option (Time * JSValue) :=
  match promises with
  | [] => None
  | promise :: rest =>
      let later := first_rejection rest in
      match promise with
      | Settles t (Rejected error) =>
          match later with
          | Some (t', _) => if Nat.ltb t' t then later else Some (t, error)
          | None => Some (t, error)
          end
      | _ => later
      end
  end.

Fixpoint all_values {A} (promises : list (Promise A)) : Promise (list A) :=
  match promises with
  | [] => Settles 0 (Fulfilled [])
  | promise :: rest =>
      match promise, all_values rest with
      | Settles t (Fulfilled a), Settles t' (Fulfilled values) =>
          Settles (Nat.max t t') (Fulfilled (a :: values))
      | _, _ => Forever
      end
  end.

Definition Promise_all {A} (promises : list (Promise A)) : Async (list A) :=
  fun now =>
    match first_rejection promises with
    | Some (t, error) => Settles (Nat.max now t) (Rejected error)
    | None =>
        match all_values promises with
        | Settles t outcome => Settles (Nat.max now t) outcome
        | Forever => Forever
        end
    end.

(** ** allPromises, ignoreErrors, allPromisesIgnoringErrors *)

(** An argument typed as an array that may be [null] or [undefined] at run
    time. *)
Inductive Nullable (A : Type) : Type :=
| JSnull
| JSundefined
| Value (a : A).
Arguments JSnull {A}.
Arguments JSundefined {A}.
Arguments Value {A} a.

(** [!promises || !promises.length] *)
Definition missing_or_empty {A} (promises : Nullable (list A)) : bool :=
  match promises with
  | JSnull | JSundefined => true
  | Value array => Nat.eqb (length array) 0
  end.

Definition array_of {A} (promises : Nullable (list A)) : list A :=
  match promises with
  | Value array => array
  | _ => []
  end.

Definition getPromiseError (promise : Promise JSValue) : Async JSValue :=
  try_await promise
    (fun _ => async_return VUndefined)
    (fun error => async_return error).

(** [array.find(predicate)]: the first element that qualifies, or
    [undefined]. *)
Definition Array_find (predicate : JSValue -> bool) (array : list JSValue) : JSValue :=
  match find predicate array with
  | Some element => element
  | None => VUndefined
  end.

Definition allPromises (promises : Nullable (list (Promise JSValue))) : Async JSValue :=
  if missing_or_empty promises then
    fun now => async_return_promise (Promise_resolve now VUndefined) now
  else
    fun now =>
      (let_await errors :=
         Promise_all (map (fun promise => getPromiseError promise now) (array_of promises)) now in
       let error := Array_find (fun error => negb (negb (truthy error))) errors in
       if truthy error then async_throw error else async_return VUndefined) now.

(** An omitted argument reads as [undefined]. *)
Definition optional (argument : option JSValue) : JSValue :=
  match argument with
  | Some v => v
  | None => VUndefined
  end.

Definition ignoreErrors (promise : Promise JSValue) (fallback : option JSValue)
  : Async JSValue :=
  try_await promise
    (fun result => async_return result)
    (fun _ => async_return (optional fallback)).

Definition allPromisesIgnoringErrors (promises : Nullable (list (Promise JSValue)))
  : Async JSValue :=
  let_call all := allPromises promises in
  let_call ignored := ignoreErrors all None in
  let_await _ := ignored in
  async_return VUndefined.

(** ** executeOrderedPromises *)

(** A task, called at a time, throws or returns the promise of its work. *)
Record OrderedPromiseData : Type := {
  function : Time -> Completion (Promise JSValue);
  blocking : option bool
}.

(** [if (data.blocking)] with the flag optional. *)
Definition is_blocking (data : OrderedPromiseData) : bool :=
  match blocking data with
  | Some b => b
  | None => false
  end.

(** Synchronous code that may call [this.logger.error]: the state is the
    list of messages logged so far. *)
Definition Logged (A : Type) : Type := list JSValue -> Completion A * list JSValue.

Definition logger_error (message : JSValue) : Logged unit :=
  fun log => (Normal tt, log ++ [message]).

(** The callback given to [finally]:
    [() => { try { return data.function(); }
             catch (e) { this.logger.error(e.message); return; } }].
    [None] stands for the bare [return]. *)
Definition start_task (data : OrderedPromiseData) (now : Time)
  : Logged (option (Promise JSValue)) :=
  fun log =>
    match function data now with
    | Normal promise => (Normal (Some promise), log)
    | Abrupt e =>
        match get_message e with
        | Normal message =>
            match logger_error message log with
            | (Normal _, log) => (Normal None, log)
            | (Abrupt thrown, log) => (Abrupt thrown, log)
            end
        | Abrupt thrown => (Abrupt thrown, log)
        end
    end.

(** [promise.finally(onFinally)] registered at [now]: the callback runs when
    [promise] settles; if it throws, or returns a promise that rejects, the
    result rejects with that; otherwise the result settles as [promise] did,
    after the returned promise (if any) has fulfilled.  The third component
    is the time the callback ran at, if it ever did. *)
Definition Promise_finally (promise : Promise JSValue)
    (onFinally : Time -> Logged (option (Promise JSValue)))
    (now : Time) (log : list JSValue)
  : Promise JSValue * list JSValue * option Time :=
  match promise with
  | Forever => (Forever, log, None)
  | Settles t outcome =>
      let t := Nat.max now t in
      match onFinally t log with
      | (Abrupt thrown, log) => (Settles t (Rejected thrown), log, Some t)
      | (Normal None, log) => (Settles t outcome, log, Some t)
      | (Normal (Some returned), log) =>
          (match returned with
           | Forever => Forever
           | Settles t' (Fulfilled _) => Settles (Nat.max t t') outcome
           | Settles t' (Rejected error) => Settles (Nat.max t t') (Rejected error)
           end, log, Some t)
      end
  end.

(** The variables of the loop, the logger, and the time each task was
    started at ([None]: never started). *)
Record Schedule : Type := {
  promises : list (Promise JSValue);
  dependency : Promise JSValue;
  logger : list JSValue;
  started : list (option Time)
}.

Definition schedule_task (now : Time) (s : Schedule) (data : OrderedPromiseData)
  : Schedule :=
  let '(promise, log, start) :=
    Promise_finally (dependency s) (start_task data) now (logger s) in
  {| promises := promises s ++ [promise];
     dependency := if is_blocking data then promise else dependency s;
     logger := log;
     started := started s ++ [start] |}.

Definition schedule_all (now : Time) (orderedPromisesData : list OrderedPromiseData)
    (log : list JSValue) : Schedule :=
  fold_left (schedule_task now) orderedPromisesData
    {| promises := [];
       dependency := Promise_resolve now VUndefined;
       logger := log;
       started := [] |}.

(** The promise returned, with the final schedule for what happened on the
    way. *)
Definition executeOrderedPromises (orderedPromisesData : list OrderedPromiseData)
    (now : Time) (log : list JSValue) : Promise JSValue * Schedule :=
  let s := schedule_all now orderedPromisesData log in
  (allPromises (Value (promises s)) now, s).

(** ** Promise objects

    Where the code builds a promise with [new Promise(executor)], the promise
    is an object in the heap and [resolve] and [reject] are the two native
    functions that share it: each takes effect only while the promise is
    pending, and otherwise returns without doing anything ([resolve] is only
    ever given a value that is not a thenable, so resolving is settling).
    [settlements] records every settlement that took effect, that is every
    time the reactions of a promise were triggered. *)

Inductive PromiseState : Type :=
| Pending
| Settled (time : Time) (outcome : Outcome JSValue).

Record Runtime : Type := {
  heap : gmap nat PromiseState;
  settlements : list (nat * Time * Outcome JSValue)
}.

Definition Resolver : Type := JSValue -> Time -> Runtime -> Completion unit * Runtime.

Definition settle (ref : nat) (outcome : Outcome JSValue) (now : Time) (rt : Runtime)
  : Completion unit * Runtime :=
  match heap rt !! ref with
  | Some Pending =>
      (Normal tt,
       {| heap := <[ref := Settled now outcome]> (heap rt);
          settlements := settlements rt ++ [(ref, now, outcome)] |})
  | _ => (Normal tt, rt)
  end.

Definition resolve_function (ref : nat) : Resolver :=
  fun value => settle ref (Fulfilled value).

Definition reject_function (ref : nat) : Resolver :=
  fun reason => settle ref (Rejected reason).

(** [new Promise((resolve, reject) => ...)] for an executor that only keeps
    the two functions. *)
Definition new_Promise {S} (executor : Resolver -> Resolver -> S) (rt : Runtime)
  : nat * S * Runtime :=
  let ref := fresh (dom (heap rt)) in
  (ref,
   executor (resolve_function ref) (reject_function ref),
   {| heap := <[ref := Pending]> (heap rt); settlements := settlements rt |}).

Definition state_of (ref : nat) (rt : Runtime) : PromiseState :=
  match heap rt !! ref with
  | Some state => state
  | None => Pending
  end.

(** How often the promise has settled so far. *)
Definition times_settled (ref : nat) (rt : Runtime) : nat :=
  length (filter (fun s => s.1.1 = ref) (settlements rt)).

(** ** promiseDefer *)

Record PromiseDefer : Type := {
  promise : nat;
  resolve : Resolver;
  reject : Resolver
}.

Definition promiseDefer (rt : Runtime) : PromiseDefer * Runtime :=
  let '(promise, (resolve, reject), rt) :=
    new_Promise (fun resolve reject => (resolve, reject)) rt in
  ({| promise := promise; resolve := resolve; reject := reject |}, rt).

(** Calls made on a deferred by its owner, each at a time. *)
Inductive DeferredCall : Type :=
| CallResolve (value : JSValue)
| CallReject (reason : JSValue).

Definition call_deferred (deferred : PromiseDefer) (c : Time * DeferredCall)
    (rt : Runtime) : Completion unit * Runtime :=
  match c with
  | (now, CallResolve value) => resolve deferred value now rt
  | (now, CallReject reason) => reject deferred reason now rt
  end.

Fixpoint call_deferred_all (deferred : PromiseDefer) (calls : list (Time * DeferredCall))
    (rt : Runtime) : list (Completion unit) * Runtime :=
  match calls with
  | [] => ([], rt)
  | c :: rest =>
      let '(completion, rt) := call_deferred deferred c rt in
      let '(completions, rt) := call_deferred_all deferred rest rt in
      (completion :: completions, rt)
  end.

Definition empty_runtime : Runtime := {| heap := ∅; settlements := [] |}.

(** ** timeoutPromise

    The state the closures of [timeoutPromise] share: the promise returned
    to the caller, the flag [timedOut], the timer [timeout] and the promise
    passed in.  Two things can happen to it: the timer elapses, or the
    promise passed in settles. *)

Inductive Timer : Type :=
| Armed (deadline : Time)
| Fired
| Cleared.

Record TimeoutPromise : Type := {
  runtime : Runtime;
  returned : nat;
  timedOut : bool;
  timeout : Timer;
  source : PromiseState
}.

(** A callback run at a time on the shared state. *)
Definition Callback (A : Type) : Type :=
  Time -> TimeoutPromise -> Completion A * TimeoutPromise.

Definition with_runtime (s : TimeoutPromise) (rt : Runtime) : TimeoutPromise :=
  {| runtime := rt; returned := returned s; timedOut := timedOut s;
     timeout := timeout s; source := source s |}.

(** [resolve] and [reject] of the executor, called with one argument. *)
Definition call_resolver (f : nat -> Resolver) (argument : JSValue) : Callback JSValue :=
  fun now s =>
    match f (returned s) argument now (runtime s) with
    | (Normal _, rt) => (Normal VUndefined, with_runtime s rt)
    | (Abrupt thrown, rt) => (Abrupt thrown, with_runtime s rt)
    end.

(** [() => { if (timedOut) { return; } resolve(); }] *)
Definition resolveBeforeTimeout : Callback JSValue :=
  fun now s =>
    if timedOut s then (Normal VUndefined, s)
    else call_resolver resolve_function (optional None) now s.

(** [() => { reject({ timeout: true }); timedOut = true; }] *)
Definition timeout_marker : JSValue := VObject [("timeout", VBool true)].

Definition on_timeout : Callback JSValue :=
  fun now s =>
    match call_resolver reject_function timeout_marker now s with
    | (Normal _, s) =>
        (Normal VUndefined,
         {| runtime := runtime s; returned := returned s; timedOut := true;
            timeout := timeout s; source := source s |})
    | (Abrupt thrown, s) => (Abrupt thrown, s)
    end.

(** [clearTimeout(timeout)]: a timer that has not fired yet never will. *)
Definition clearTimeout : Callback JSValue :=
  fun now s =>
    (Normal VUndefined,
     {| runtime := runtime s; returned := returned s; timedOut := timedOut s;
        timeout := match timeout s with Armed _ => Cleared | t => t end;
        source := source s |}).

(** The reactions of [then], [catch] and [finally] to a settled promise; the
    outcome is that of the promise each of them returns. *)
Definition Promise_then (outcome : Outcome JSValue) (onFulfilled : JSValue -> Callback JSValue)
    (now : Time) (s : TimeoutPromise) : Outcome JSValue * TimeoutPromise :=
  match outcome with
  | Fulfilled value =>
      match onFulfilled value now s with
      | (Normal result, s) => (Fulfilled result, s)
      | (Abrupt thrown, s) => (Rejected thrown, s)
      end
  | Rejected reason => (Rejected reason, s)
  end.

Definition Promise_catch (outcome : Outcome JSValue) (onRejected : JSValue -> Callback JSValue)
    (now : Time) (s : TimeoutPromise) : Outcome JSValue * TimeoutPromise :=
  match outcome with
  | Fulfilled value => (Fulfilled value, s)
  | Rejected reason =>
      match onRejected reason now s with
      | (Normal result, s) => (Fulfilled result, s)
      | (Abrupt thrown, s) => (Rejected thrown, s)
      end
  end.

Definition Promise_finally_sync (outcome : Outcome JSValue) (onFinally : Callback JSValue)
    (now : Time) (s : TimeoutPromise) : Outcome JSValue * TimeoutPromise :=
  match onFinally now s with
  | (Normal _, s) => (outcome, s)
  | (Abrupt thrown, s) => (Rejected thrown, s)
  end.

(** [promise.then(resolveBeforeTimeout).catch(reject).finally(() => clearTimeout(timeout))]
    once [promise] has settled with [outcome]. *)
Definition on_settled (outcome : Outcome JSValue) (now : Time) (s : TimeoutPromise)
  : TimeoutPromise :=
  let '(outcome, s) := Promise_then outcome (fun _ => resolveBeforeTimeout) now s in
  let '(outcome, s) := Promise_catch outcome (call_resolver reject_function) now s in
  let '(_, s) := Promise_finally_sync outcome clearTimeout now s in
  s.

(** The executor: the flag is down, the timer is set, the reactions are
    registered. *)
Definition timeoutPromise_start (time : nat) (now : Time) (rt : Runtime) : TimeoutPromise :=
  let '(ref, _, rt) := new_Promise (fun _ _ => tt) rt in
  {| runtime := rt; returned := ref; timedOut := false;
     timeout := Armed (now + time); source := Pending |}.

Inductive Event : Type :=
| TimerElapses
| SourceSettles (outcome : Outcome JSValue).

(** The event loop runs the timer callback only for a timer that is still
    set, and the reactions of a promise only the one time it settles; each
    runs to completion, reactions included, before the next event. *)
Definition step (s : TimeoutPromise) (e : Time * Event) : TimeoutPromise :=
  match e with
  | (now, TimerElapses) =>
      match timeout s with
      | Armed _ =>
          (on_timeout now
             {| runtime := runtime s; returned := returned s; timedOut := timedOut s;
                timeout := Fired; source := source s |}).2
      | _ => s
      end
  | (now, SourceSettles outcome) =>
      match source s with
      | Pending =>
          on_settled outcome now
            {| runtime := runtime s; returned := returned s; timedOut := timedOut s;
               timeout := timeout s; source := Settled now outcome |}
      | Settled _ _ => s
      end
  end.

Definition run (events : list (Time * Event)) (s : TimeoutPromise) : TimeoutPromise :=
  fold_left step events s.

(** The events of one call, in the order the event loop takes them: the
    reactions of a promise that settles before the deadline, or that had
    settled by the time of the call, run before the timer; when both fall
    due together the loop may take either first. *)
Definition agenda (promise : Promise JSValue) (time : nat) (timer_first : bool) (now : Time)
  : list (Time * Event) :=
  let deadline := now + time in
  match promise with
  | Forever => [(deadline, TimerElapses)]
  | Settles t outcome =>
      let t := Nat.max now t in
      if Nat.ltb deadline t || (Nat.eqb deadline t && Nat.ltb now t && timer_first)
      then [(deadline, TimerElapses); (t, SourceSettles outcome)]
      else [(t, SourceSettles outcome); (deadline, TimerElapses)]
  end.

(** What the caller sees of the promise returned. *)
Definition observe (ref : nat) (rt : Runtime) : Promise JSValue :=
  match state_of ref rt with
  | Pending => Forever
  | Settled t outcome => Settles t outcome
  end.

Definition timeoutPromise (promise : Promise JSValue) (time : nat)
    (timer_first : bool) (now : Time) : Promise JSValue :=
  let s := run (agenda promise time timer_first now)
               (timeoutPromise_start time now empty_runtime) in
  observe (returned s) (runtime s).

(** ** promiseFails, promiseWorks, wait *)

Definition promiseFails (promise : Promise JSValue) : Async JSValue :=
  try_await promise
    (fun _ => async_return (VBool false))
    (fun _ => async_return (VBool true)).

Definition promiseWorks (promise : Promise JSValue) : Async JSValue :=
  try_await promise
    (fun _ => async_return (VBool true))
    (fun _ => async_return (VBool false)).

(** [new Promise(resolve => setTimeout(resolve, milliseconds))]: the timer
    calls [resolve] without a value when it elapses. *)
Definition wait (milliseconds : nat) : Async JSValue :=
  fun now => Settles (now + milliseconds) (Fulfilled VUndefined).

(** ** debounce

    The state of one debounced function: the variable [timeoutID], the
    timers it has set that are neither cleared nor fired (oldest first, each
    with its deadline and the arguments its callback captured), and the
    calls of [fn] made so far, each with the time and the arguments. *)

Record Debounce : Type := {
  timeoutID : option nat;
  timers : list (nat * Time * list JSValue);
  next_id : nat;
  invocations : list (Time * list JSValue)
}.

(** [debounce(fn, delay)]: [timeoutID] is declared and not set. *)
Definition debounce : Debounce :=
  {| timeoutID := None; timers := []; next_id := 1; invocations := [] |}.

(** [clearTimeout(timeoutID)]; nothing to clear for [undefined] or for a
    timer that has fired. *)
Definition clear_timer (id : option nat) (active : list (nat * Time * list JSValue))
  : list (nat * Time * list JSValue) :=
  match id with
  | None => active
  | Some id => List.filter (fun timer => negb (Nat.eqb timer.1.1 id)) active
  end.

(** [(...args) => { clearTimeout(timeoutID);
                    timeoutID = window.setTimeout(() => fn.apply(null, args), delay); }] *)
Definition debounced (delay : nat) (args : list JSValue) (now : Time) (s : Debounce)
  : Debounce :=
  let active := clear_timer (timeoutID s) (timers s) in
  let id := next_id s in
  {| timeoutID := Some id;
     timers := active ++ [(id, now + delay, args)];
     next_id := S id;
     invocations := invocations s |}.

(** A timer is due before what happens at [t] if its deadline is earlier;
    when both fall together the event loop may take either first. *)
Definition is_due (timer_first : bool) (t : Time) (deadline : Time) : bool :=
  Nat.ltb deadline t || (Nat.eqb deadline t && timer_first).

(** The event loop runs the callbacks of the timers that are due, oldest
    first: each calls [fn] with the arguments it captured. *)
Definition run_timers (due : Time -> bool) (s : Debounce) : Debounce :=
  {| timeoutID := timeoutID s;
     timers := List.filter (fun timer => negb (due timer.1.2)) (timers s);
     next_id := next_id s;
     invocations :=
       invocations s
       ++ map (fun timer => (timer.1.2, timer.2))
              (List.filter (fun timer => due timer.1.2) (timers s)) |}.

(** Calls of the debounced function at the given times, in this order, and
    then nothing more: the timers left run in the end. *)
Fixpoint debounce_calls (delay : nat) (timer_first : bool)
    (calls : list (Time * list JSValue)) (s : Debounce) : Debounce :=
  match calls with
  | [] => run_timers (fun _ => true) s
  | (t, args) :: rest =>
      debounce_calls delay timer_first rest
        (debounced delay args t (run_timers (is_due timer_first t) s))
  end.

(** ** hasRepeatedFilenames, indexOfRegexp, filterByRegexp, uniqueArray,
       sumFileSizes *)

(** A [FileEntry] has [isFile] and a [name]; a [CoreWSExternalFile] has an
    optional [filename]. *)
Inductive File : Type :=
| FileEntry (name : string)
| WSExternalFile (filename : option string).

(** ['isFile' in file] *)
Definition isFileEntry (file : File) : bool :=
  match file with
  | FileEntry _ => true
  | WSExternalFile _ => false
  end.

(** [(this.isFileEntry(file) ? file.name : file.filename) || ''] *)
Definition file_name (file : File) : string :=
  match file with
  | FileEntry name => name
  | WSExternalFile (Some filename) => filename
  | WSExternalFile None => ""
  end.

(** The loop of [hasRepeatedFilenames]; [instant] is
    [name => Translate.instance.instant('core.filenameexist', { $a: name })],
    and [None] stands for [false]. *)
Fixpoint repeated_after (instant : string -> string) (names : list string)
    (files : list File) : option string :=
  match files with
  | [] => None
  | file :: rest =>
      let name := file_name file in
      if bool_decide (name ∈ names) then Some (instant name)
      else repeated_after instant (names ++ [name]) rest
  end.

Definition hasRepeatedFilenames (instant : string -> string)
    (files : Nullable (list File)) : option string :=
  if missing_or_empty files then None
  else repeated_after instant [] (array_of files).

(** A regular expression without the sticky flag, by what [entry.match(regex)]
    returns: [null] or the array of matches. *)
Definition RegExp : Type := string -> option (list string).

(** [matches && matches.length] *)
Definition has_matches (matches : option (list string)) : bool :=
  match matches with
  | Some found => negb (Nat.eqb (length found) 0)
  | None => false
  end.

Fixpoint indexOfRegexp_from (i : Z) (array : list string) (regex : RegExp) : Z :=
  match array with
  | [] => (-1)%Z
  | entry :: rest =>
      if has_matches (regex entry) then i
      else indexOfRegexp_from (i + 1)%Z rest regex
  end.

Definition indexOfRegexp (array : Nullable (list string)) (regex : RegExp) : Z :=
  if missing_or_empty array then (-1)%Z
  else indexOfRegexp_from 0%Z (array_of array) regex.

Definition filterByRegexp (array : Nullable (list string)) (regex : RegExp)
  : list string :=
  if missing_or_empty array then []
  else List.filter (fun entry => has_matches (regex entry)) (array_of array).

(** [uniqueArray(array)] for an array of strings, without the [key]
    argument.  [unique] is the object literal [{}] with the own keys set so
    far: [value in unique] also finds the members of [Object.prototype], and
    [unique['__proto__'] = true] sets no own key. *)
Definition in_object (own : gset string) (value : string) : bool :=
  bool_decide (value ∈ own) || inherited value.

Definition set_key (own : gset string) (value : string) : gset string :=
  if bool_decide (value = "__proto__") then own else {[value]} ∪ own.

Fixpoint uniqueArray_filter (unique : gset string) (array : list string) : list string :=
  match array with
  | [] => []
  | entry :: rest =>
      if in_object unique entry then uniqueArray_filter unique rest
      else entry :: uniqueArray_filter (set_key unique entry) rest
  end.

Definition uniqueArray (array : list string) : list string :=
  uniqueArray_filter ∅ array.

Definition mergeArraysWithoutDuplicates (array1 array2 : list string) : list string :=
  uniqueArray (array1 ++ array2).

(** A file as far as [sumFileSizes] reads it: its [filesize], if defined. *)
Record CoreFileSizeSum : Type := {
  sum_size : Z;
  sum_total : bool
}.

Definition sumFileSizes (files : list (option Z)) : CoreFileSizeSum :=
  fold_left
    (fun result filesize =>
       match filesize with
       | None => {| sum_size := sum_size result; sum_total := false |}
       | Some n => {| sum_size := (sum_size result + n)%Z; sum_total := sum_total result |}
       end)
    files {| sum_size := 0%Z; sum_total := true |}.

(** ** stopScanQR

    The scan in progress, if any, is the deferred in [qrScanData]; hiding the
    camera and unsubscribing are calls to the plugin and leave no trace
    here.  [canceled] is [CoreDomUtils.instance.createCanceledError()]. *)

Record QRScan : Type := {
  qrScanData : option PromiseDefer;
  scan_runtime : Runtime
}.

(** [typeof v == 'undefined'] *)
Definition is_undefined (v : JSValue) : bool :=
  match v with
  | VUndefined => true
  | _ => false
  end.

Definition stopScanQR (canceled : JSValue) (data : option JSValue)
    (error : option bool) (now : Time) (s : QRScan) : QRScan :=
  match qrScanData s with
  | None => s
  | Some deferred =>
      let data := optional data in
      let settled :=
        if match error with Some flag => flag | None => false end then
          reject deferred data now (scan_runtime s)
        else if negb (is_undefined data) then
          resolve deferred data now (scan_runtime s)
        else
          reject deferred canceled now (scan_runtime s) in
      {| qrScanData := None; scan_runtime := settled.2 |}
  end.

(** ** Notions used to state the properties *)

(** The ids the spec promises for a sequence of calls: the number of the
    call among those made for the same name so far. *)
Fixpoint call_numbers (seen names : list string) : list JSNumber :=
  match names with
  | [] => []
  | name :: rest =>
      Num (Z.of_nat (S (count_occ String.string_dec seen name)))
      :: call_numbers (name :: seen) rest
  end.

(** The registry after the calls [seen], on the names that are not those of
    members of [Object.prototype]. *)
Definition counts (seen : list string) (uniqueIds : gmap string JSNumber) : Prop :=
  ∀ name, inherited name = false →
    uniqueIds !! name =
      match count_occ String.string_dec seen name with
      | O => None
      | S n => Some (Num (Z.of_nat (S n)))
      end.

(** When the last promise of a list settles; [None] if one never does. *)
Fixpoint last_settlement {A} (promises : list (Promise A)) : option Time :=
  match promises with
  | [] => Some 0
  | Settles t _ :: rest =>
      match last_settlement rest with
      | Some t' => Some (Nat.max t t')
      | None => None
      end
  | Forever :: _ => None
  end.

(** What [getPromiseError] resolves to for a settled promise. *)
Definition error_of (promise : Promise JSValue) : JSValue :=
  match promise with
  | Settles _ (Rejected error) => error
  | _ => VUndefined
  end.

(** The settlement a call on a deferred asks for. *)
Definition requested (c : DeferredCall) : Outcome JSValue :=
  match c with
  | CallResolve value => Fulfilled value
  | CallReject reason => Rejected reason
  end.

(** What [timeoutPromise] passes on of the settlement of its promise: the
    reason of a rejection, and [undefined] for any value. *)
Definition passed_on (outcome : Outcome JSValue) : Outcome JSValue :=
  match outcome with
  | Fulfilled _ => Fulfilled VUndefined
  | Rejected reason => Rejected reason
  end.

(** In [s] the promise returned is still the one of [s0]; it has settled as
    given, and once more than in [s0]. *)
Definition settled_once (s0 s : TimeoutPromise) (t : Time)
    (outcome : Outcome JSValue) : Prop :=
  returned s = returned s0
  ∧ observe (returned s0) (runtime s) = Settles t outcome
  ∧ times_settled (returned s0) (runtime s)
    = S (times_settled (returned s0) (runtime s0)).

(** The states of [timeoutPromise] in which the promise returned has settled
    and the timer is no longer set. *)
Definition decided (s : TimeoutPromise) : Prop :=
  (∃ t outcome, heap (runtime s) !! returned s = Some (Settled t outcome))
  ∧ (timeout s = Fired ∨ timeout s = Cleared).

Definition same_but_source (s s' : TimeoutPromise) : Prop :=
  runtime s' = runtime s ∧ returned s' = returned s
  ∧ timedOut s' = timedOut s ∧ timeout s' = timeout s.

(** Tasks to run the scheduler on: one whose work takes [duration] and ends
    as [outcome], one that throws when called, one that has nothing to do. *)
Definition task_lasting (duration : nat) (outcome : Outcome JSValue)
    (blocking : option bool) : OrderedPromiseData :=
  {| function := λ now, Normal (Settles (now + duration) outcome);
     blocking := blocking |}.

Definition task_throwing (thrown : JSValue) (blocking : option bool)
  : OrderedPromiseData :=
  {| function := λ _, Abrupt thrown; blocking := blocking |}.

Definition task_idle (blocking : option bool) : OrderedPromiseData :=
  {| function := λ now, Normal (Settles now (Fulfilled VUndefined));
     blocking := blocking |}.

(** Two schedules that differ at most in what was logged. *)
Definition same_schedule (s s' : Schedule) : Prop :=
  promises s = promises s' ∧ dependency s = dependency s' ∧ started s = started s'.

(** When a promise settles, if it does. *)
Definition settlement_time {A} (promise : Promise A) : option Time :=
  match promise with
  | Settles t _ => Some t
  | Forever => None
  end.

(** A promise that does not reject with a falsy reason. *)
Definition truthy_reason (promise : Promise JSValue) : Prop :=
  match promise with
  | Settles _ (Rejected error) => truthy error = true
  | _ => True
  end.

(** The reason of the first promise of a list, in the order of the list,
    that rejects. *)
Fixpoint first_rejected (promises : list (Promise JSValue)) : option JSValue :=
  match promises with
  | [] => None
  | Settles _ (Rejected error) :: _ => Some error
  | _ :: rest => first_rejected rest
  end.

(** How [stopScanQR] settles the scan it stops. *)
Definition scan_outcome (canceled : JSValue) (data : option JSValue)
    (error : option bool) : Outcome JSValue :=
  match error, data with
  | Some true, _ => Rejected (optional data)
  | _, Some VUndefined | _, None => Rejected canceled
  | _, Some text => Fulfilled text
  end.

(** What a debounced function forwards to [fn]: the arguments of a call, at
    the deadline of that call, unless the next call comes before the timer
    of the call runs.  [pending] is the call that still has its timer. *)
Fixpoint forwarded_after (delay : nat) (timer_first : bool)
    (pending : option (Time * list JSValue)) (calls : list (Time * list JSValue))
  : list (Time * list JSValue) :=
  match calls with
  | [] =>
      match pending with
      | Some call => [call]
      | None => []
      end
  | (t, args) :: rest =>
      match pending with
      | Some (deadline, earlier) =>
          if is_due timer_first t deadline then [(deadline, earlier)] else []
      | None => []
      end
      ++ forwarded_after delay timer_first (Some (t + delay, args)) rest
  end.

Definition forwarded (delay : nat) (timer_first : bool)
    (calls : list (Time * list JSValue)) : list (Time * list JSValue) :=
  forwarded_after delay timer_first None calls.

(** Calls that each come less than [delay] after the one before. *)
Fixpoint rapid (delay : nat) (calls : list (Time * list JSValue)) : Prop :=
  match calls with
  | (t, _) :: rest =>
      match rest with
      | (t', _) :: _ => (t' < t + delay)%nat
      | [] => True
      end
      ∧ rapid delay rest
  | [] => True
  end.

(** The timers of a debounced function are at most the one of [pending]. *)
Definition one_timer (s : Debounce) (pending : option (Time * list JSValue)) : Prop :=
  match pending with
  | None => timers s = []
  | Some (deadline, args) =>
      ∃ id, timers s = [(id, deadline, args)] ∧ timeoutID s = Some id
  end.

(** The own keys of [unique] once [uniqueArray] has gone through [array]. *)
Definition seen_keys (unique : gset string) (array : list string) : gset string :=
  fold_left
    (fun unique entry => if in_object unique entry then unique else set_key unique entry)
    array unique.

(** The sum of the sizes that are defined. *)
Fixpoint known_sizes (files : list (option Z)) : Z :=
  match files with
  | [] => 0
  | Some n :: rest => n + known_sizes rest
  | None :: rest => known_sizes rest
  end.

(** * Properties *)

(** ** getUniqueId *)

Section UniqueIds.

Implicit Types (uniqueIds : gmap string JSNumber) (name : string).

Lemma not_inherited_proto name : inherited name = false → name ≠ "__proto__".
Proof. intros H ->. vm_compute in H. discriminate. Qed.

Lemma set_property_own name n uniqueIds :
  inherited name = false → set_property uniqueIds name n = <[name:=n]> uniqueIds.
Proof.
  intros H. unfold set_property.
  rewrite bool_decide_eq_false_2; [done | by apply not_inherited_proto].
Qed.

Lemma getUniqueId_own seen name uniqueIds :
  inherited name = false →
  counts seen uniqueIds →
  (getUniqueId name uniqueIds).1
    = Num (Z.of_nat (S (count_occ String.string_dec seen name)))
  ∧ counts (name :: seen) (getUniqueId name uniqueIds).2.
Proof.
  intros Hname Hcounts.
  pose proof (Hcounts name Hname) as Hlook.
  unfold getUniqueId, get_property.
  destruct (count_occ String.string_dec seen name) as [|c] eqn:Hc.
  - rewrite Hlook, Hname. cbn [prop_truthy negb].
    rewrite !set_property_own by done.
    rewrite lookup_insert_eq. cbn. split; [done |].
    intros k Hk. cbn [count_occ].
    destruct (String.string_dec name k) as [-> | Hne].
    + rewrite lookup_insert_eq, Hc. done.
    + rewrite !lookup_insert_ne by done. by apply Hcounts.
  - rewrite Hlook. cbn [prop_truthy number_truthy].
    replace (Z.eqb (Z.of_nat (S c)) 0) with false by (symmetry; apply Z.eqb_neq; lia).
    cbn [negb]. rewrite Hlook. cbn [prop_to_number increment fst snd].
    rewrite set_property_own by done.
    split; [f_equal; lia |].
    intros k Hk. cbn [count_occ].
    destruct (String.string_dec name k) as [-> | Hne].
    + rewrite lookup_insert_eq, Hc. do 2 f_equal. lia.
    + rewrite lookup_insert_ne by done. by apply Hcounts.
Qed.

Lemma getUniqueIds_own names : ∀ seen uniqueIds,
  Forall (λ name, inherited name = false) names →
  counts seen uniqueIds →
  (getUniqueIds names uniqueIds).1 = call_numbers seen names.
Proof.
  induction names as [|name rest IH]; intros seen uniqueIds Hnames Hcounts; [done |].
  inversion Hnames as [|? ? Hname Hrest]; subst.
  destruct (getUniqueId_own seen name uniqueIds Hname Hcounts) as [Hid Hnext].
  cbn [getUniqueIds call_numbers].
  destruct (getUniqueId name uniqueIds) as [id uniqueIds'] eqn:Hcall.
  specialize (IH (name :: seen) uniqueIds' Hrest Hnext).
  destruct (getUniqueIds rest uniqueIds') as [ids uniqueIds''].
  cbn in *. by rewrite Hid, IH.
Qed.

(** For names that are not members of [Object.prototype], every call
    returns the number of the call among those for its name, whatever the
    calls for other names in between. *)
Lemma getUniqueId_counts_per_name names :
  Forall (λ name, inherited name = false) names →
  (getUniqueIds names ∅).1 = call_numbers [] names.
Proof.
  intros Hnames. apply getUniqueIds_own; [done |].
  intros name _. cbn. apply lookup_empty.
Qed.

Example getUniqueId_k_other :
  (getUniqueIds ["k"; "k"; "other"; "k"] ∅).1 = [Num 1; Num 2; Num 1; Num 3].
Proof. vm_compute. reflexivity. Qed.

(** C7 (code defect).  The claim is stated for every string key, but
    [uniqueIds] is a plain object: for a key that names a member of
    [Object.prototype] the first call finds the inherited member instead
    of a missing counter and returns [NaN] instead of 1, and for
    [__proto__] every call returns [NaN], so the ids are not even
    distinct. *)
Theorem getUniqueId_inherited_key :
  (getUniqueIds ["constructor"; "constructor"; "constructor"] ∅).1
    = [NaN; Num 1; Num 2]
  ∧ (getUniqueIds ["__proto__"; "__proto__"] ∅).1 = [NaN; NaN]
  ∧ (getUniqueId "constructor" ∅).1 ≠ Num 1.
Proof. split; [| split]; vm_compute; [reflexivity | reflexivity | discriminate]. Qed.

End UniqueIds.

(** ** allPromises *)

Section AllPromises.

Implicit Types (promises : list (Promise JSValue)) (now t : Time).

Lemma getPromiseError_unfold (promise : Promise JSValue) now :
  getPromiseError promise now =
    match promise with
    | Settles t _ => Settles (Nat.max now t) (Fulfilled (error_of promise))
    | Forever => Forever
    end.
Proof. by destruct promise as [t [value | error] |]. Qed.

Lemma getPromiseError_never_rejects promises now :
  first_rejection (map (λ promise, getPromiseError promise now) promises) = None.
Proof.
  induction promises as [|promise rest IH]; [done |].
  cbn [map first_rejection]. rewrite IH, getPromiseError_unfold.
  by destruct promise as [t [value | error] |].
Qed.

Lemma all_values_errors promises now :
  all_values (map (λ promise, getPromiseError promise now) promises) =
    match last_settlement promises with
    | Some t =>
        Settles (match promises with [] => 0 | _ => Nat.max now t end)
                (Fulfilled (map error_of promises))
    | None => Forever
    end.
Proof.
  induction promises as [|promise rest IH]; [done |].
  cbn [map all_values last_settlement]. rewrite IH, getPromiseError_unfold.
  destruct promise as [t outcome |]; [| done].
  destruct (last_settlement rest) as [t' |] eqn:Hrest; [| done].
  cbn [map]. f_equal. destruct rest; [injection Hrest as <- |]; lia.
Qed.

Lemma Array_find_truthy (errors : list JSValue) :
  let error := Array_find (λ error, negb (negb (truthy error))) errors in
  (if truthy error then Some error else None) = find truthy errors.
Proof.
  unfold Array_find. induction errors as [|e rest IH]; [done |].
  cbn [find]. rewrite negb_involutive.
  destruct (truthy e) eqn:He; [by rewrite He | exact IH].
Qed.

(** What the call returns, for every argument. *)
Lemma allPromises_unfold (arg : Nullable (list (Promise JSValue))) now :
  allPromises arg now =
    match last_settlement (array_of arg) with
    | Some t =>
        Settles (Nat.max now t)
          match find truthy (map error_of (array_of arg)) with
          | Some error => Rejected error
          | None => Fulfilled VUndefined
          end
    | None => Forever
    end.
Proof.
  unfold allPromises.
  destruct (missing_or_empty arg) eqn:Hempty.
  - assert (array_of arg = []) as ->.
    { destruct arg as [| | [|? ?]]; done. }
    cbn. unfold async_return_promise, await, try_await, Promise_resolve, async_return.
    f_equal. lia.
  - destruct arg as [| | promises]; [done | done |]. cbn [array_of].
    unfold await, try_await, Promise_all.
    rewrite getPromiseError_never_rejects, all_values_errors.
    destruct (last_settlement promises) as [t |]; [| done].
    destruct promises as [|promise rest]; [done |].
    replace (Nat.max now (Nat.max now (Nat.max now t))) with (Nat.max now t) by lia.
    rewrite <- Array_find_truthy. cbv zeta.
    by destruct (truthy (Array_find _ _)).
Qed.

Lemma last_settlement_settled {A} (ps : list (Promise A)) t :
  last_settlement ps = Some t → Forall (settled_by t) ps.
Proof.
  revert t. induction ps as [|p rest IH]; intros t Hlast; [constructor |].
  cbn in Hlast. destruct p as [t0 outcome |]; [| done].
  destruct (last_settlement rest) as [t' |] eqn:Hrest; [| done].
  injection Hlast as <-. constructor; [cbn; lia |].
  eapply Forall_impl; [by apply IH |].
  intros [t1 o1 |]; cbn; [lia | done].
Qed.

Lemma last_settlement_all {A} (ps : list (Promise A)) :
  Forall (λ p, p ≠ Forever) ps → is_Some (last_settlement ps).
Proof.
  induction 1 as [|p rest Hp _ IH]; [by eexists |].
  cbn. destruct p as [t o |]; [| done].
  destruct IH as [t' ->]. by eexists.
Qed.

(** The aggregate settles only once every promise has: whatever it settles
    with, by that time all of them have settled. *)
Lemma allPromises_waits promises now t outcome :
  allPromises (Value promises) now = Settles t outcome →
  (now ≤ t)%nat ∧ Forall (settled_by t) promises.
Proof.
  rewrite allPromises_unfold. cbn [array_of].
  destruct (last_settlement promises) as [t' |] eqn:Hlast; [| done].
  intros [= <- _]. split; [lia |].
  eapply Forall_impl; [by apply last_settlement_settled |].
  intros [t1 o1 |]; cbn; [lia | done].
Qed.

(** It rejects with the first truthy rejection reason in array order, and
    fulfils when there is none. *)
Lemma allPromises_first_truthy_error promises now t :
  last_settlement promises = Some t →
  allPromises (Value promises) now =
    Settles (Nat.max now t)
      match find truthy (map error_of promises) with
      | Some error => Rejected error
      | None => Fulfilled VUndefined
      end.
Proof. intros Hlast. rewrite allPromises_unfold. cbn [array_of]. by rewrite Hlast. Qed.

(** C1 (code defect).  The aggregate does wait for every promise, but it
    tells a rejection from a success by the truthiness of the reason: a
    promise rejected with [undefined], [null], [false], [0] or the empty
    string counts as a success.  With such a rejection alone the aggregate
    fulfils, and with one before a truthy rejection it reports the later
    one, not the first in order. *)
Theorem allPromises_falsy_rejection :
  allPromises (Value [Settles 3 (Rejected VUndefined)]) 0
    = Settles 3 (Fulfilled VUndefined)
  ∧ allPromises (Value [Settles 1 (Rejected (VString ""));
                        Settles 2 (Rejected (new_Error "second"))]) 0
    = Settles 2 (Rejected (new_Error "second")).
Proof. split; reflexivity. Qed.

(** C10.  With [null] or [undefined] for the array, the call does not throw
    and resolves at once, as it does for the empty array. *)
Theorem allPromises_null_or_undefined now :
  allPromises JSnull now = Settles now (Fulfilled VUndefined)
  ∧ allPromises JSundefined now = Settles now (Fulfilled VUndefined)
  ∧ allPromises JSnull now = allPromises (Value []) now
  ∧ allPromises JSundefined now = allPromises (Value []) now.
Proof.
  rewrite !allPromises_unfold. cbn.
  replace (Nat.max now 0) with now by lia. done.
Qed.

End AllPromises.

(** ** ignoreErrors and allPromisesIgnoringErrors *)

Section IgnoringErrors.

Implicit Types (promise : Promise JSValue) (now t : Time).

Lemma ignoreErrors_unfold promise fallback now :
  ignoreErrors promise fallback now =
    match promise with
    | Settles t (Fulfilled result) => Settles (Nat.max now t) (Fulfilled result)
    | Settles t (Rejected _) => Settles (Nat.max now t) (Fulfilled (optional fallback))
    | Forever => Forever
    end.
Proof. by destruct promise as [t [result | error] |]. Qed.

Lemma ignoreErrors_never_rejects promise fallback now :
  ¬ rejects (ignoreErrors promise fallback now).
Proof.
  rewrite ignoreErrors_unfold.
  destruct promise as [t [result | error] |]; cbn; tauto.
Qed.

(** C9.  A rejection is absorbed: the call resolves to the fallback when one
    is given and to [undefined] when none is, whatever the reason; a
    fulfilled promise gives its own value. *)
Theorem ignoreErrors_absorbs t now (error result fallback : JSValue) (given : option JSValue) :
  ignoreErrors (Settles t (Rejected error)) (Some fallback) now
    = Settles (Nat.max now t) (Fulfilled fallback)
  ∧ ignoreErrors (Settles t (Rejected error)) None now
    = Settles (Nat.max now t) (Fulfilled VUndefined)
  ∧ ignoreErrors (Settles t (Fulfilled result)) given now
    = Settles (Nat.max now t) (Fulfilled result)
  ∧ ¬ rejects (ignoreErrors (Settles t (Rejected error)) given now).
Proof. repeat split. by intros []. Qed.

Lemma allPromisesIgnoringErrors_unfold (arg : Nullable (list (Promise JSValue))) now :
  allPromisesIgnoringErrors arg now =
    match last_settlement (array_of arg) with
    | Some t => Settles (Nat.max now t) (Fulfilled VUndefined)
    | None => Forever
    end.
Proof.
  unfold allPromisesIgnoringErrors, call, await, try_await.
  rewrite ignoreErrors_unfold, allPromises_unfold.
  destruct (last_settlement (array_of arg)) as [t |]; [| done].
  destruct (find truthy _); unfold async_return; f_equal; lia.
Qed.

(** C8.  Whatever the outcomes of the inputs, the call never rejects; when it
    settles it is fulfilled, and by then every input has settled; and it does
    settle once all of them have. *)
Theorem allPromisesIgnoringErrors_never_rejects
    (arg : Nullable (list (Promise JSValue))) now :
  ¬ rejects (allPromisesIgnoringErrors arg now)
  ∧ (∀ t outcome,
       allPromisesIgnoringErrors arg now = Settles t outcome →
       outcome = Fulfilled VUndefined ∧ (now ≤ t)%nat
       ∧ Forall (settled_by t) (array_of arg))
  ∧ (Forall (λ promise, promise ≠ Forever) (array_of arg) →
     ∃ t, allPromisesIgnoringErrors arg now = Settles t (Fulfilled VUndefined)).
Proof.
  rewrite allPromisesIgnoringErrors_unfold.
  destruct (last_settlement (array_of arg)) as [t' |] eqn:Hlast.
  - split; [by intros [] |]. split; [| by eexists].
    intros t outcome [= <- <-]. split; [done |]. split; [lia |].
    eapply Forall_impl; [by apply last_settlement_settled |].
    intros [t1 o1 |]; cbn; [lia | done].
  - split; [by intros [] |]. split; [done |].
    intros Hall. apply last_settlement_all in Hall as [t Ht]. congruence.
Qed.

Lemma allPromisesIgnoringErrors_never_rejects_witness :
  ∃ t, allPromisesIgnoringErrors
         (Value [Settles 2 (Rejected (new_Error "a")); Settles 5 (Fulfilled VNull)]) 1
       = Settles t (Fulfilled VUndefined).
Proof.
  apply (allPromisesIgnoringErrors_never_rejects
           (Value [Settles 2 (Rejected (new_Error "a")); Settles 5 (Fulfilled VNull)]) 1).
  repeat constructor; discriminate.
Defined.

End IgnoringErrors.

(** ** promiseDefer *)

Section Deferred.

Implicit Types (rt : Runtime) (ref : nat) (now : Time).

Lemma settle_pending ref outcome now rt :
  heap rt !! ref = Some Pending →
  settle ref outcome now rt =
    (Normal tt,
     {| heap := <[ref := Settled now outcome]> (heap rt);
        settlements := settlements rt ++ [(ref, now, outcome)] |}).
Proof. intros H. unfold settle. by rewrite H. Qed.

Lemma settle_settled ref outcome now rt t o :
  heap rt !! ref = Some (Settled t o) →
  settle ref outcome now rt = (Normal tt, rt).
Proof. intros H. unfold settle. by rewrite H. Qed.

Lemma times_settled_snoc ref now outcome heap' rt :
  times_settled ref
    {| heap := heap'; settlements := settlements rt ++ [(ref, now, outcome)] |}
  = S (times_settled ref rt).
Proof.
  unfold times_settled. cbn [settlements].
  rewrite filter_app, length_app. cbn.
  rewrite decide_True by done. cbn. lia.
Qed.

Lemma promiseDefer_unfold rt :
  promiseDefer rt =
    (let ref := fresh (dom (heap rt)) in
     ({| promise := ref;
         resolve := resolve_function ref;
         reject := reject_function ref |},
      {| heap := <[ref := Pending]> (heap rt); settlements := settlements rt |})).
Proof. reflexivity. Qed.

(** Once the promise of a deferred has settled, every call returns normally
    and leaves the run time as it is. *)
Lemma call_deferred_all_settled rt t o (calls : list (Time * DeferredCall)) :
  ∀ deferred,
    resolve deferred = resolve_function (promise deferred) →
    reject deferred = reject_function (promise deferred) →
    heap rt !! promise deferred = Some (Settled t o) →
    call_deferred_all deferred calls rt = (map (λ _, Normal tt) calls, rt).
Proof.
  intros deferred Hresolve Hreject Hsettled.
  induction calls as [|[now c] rest IH]; [done |].
  cbn [call_deferred_all call_deferred map].
  assert (call_deferred deferred (now, c) rt = (Normal tt, rt)) as Hcall.
  { destruct c as [value | reason]; cbn [call_deferred].
    - rewrite Hresolve. exact (settle_settled _ (Fulfilled value) now rt t o Hsettled).
    - rewrite Hreject. exact (settle_settled _ (Rejected reason) now rt t o Hsettled). }
  cbn in Hcall. rewrite Hcall, IH. done.
Qed.

(** C6.  On a deferred just made, the first call to [resolve] or [reject]
    settles the promise as it asks, at the time it is made; every call after
    it returns normally without any effect, so the promise has settled once
    and keeps the first outcome. *)
Theorem promiseDefer_first_call_wins rt now (first : DeferredCall)
    (later : list (Time * DeferredCall)) :
  let '(deferred, rt1) := promiseDefer rt in
  let '(completions, rt2) := call_deferred_all deferred ((now, first) :: later) rt1 in
  state_of (promise deferred) rt1 = Pending
  ∧ state_of (promise deferred) rt2 = Settled now (requested first)
  ∧ times_settled (promise deferred) rt2 = S (times_settled (promise deferred) rt1)
  ∧ completions = map (λ _, Normal tt) ((now, first) :: later)
  ∧ call_deferred_all deferred later
      (call_deferred deferred (now, first) rt1).2
    = (map (λ _, Normal tt) later, rt2).
Proof.
  rewrite promiseDefer_unfold. cbv zeta.
  set (ref := fresh (dom (heap rt))).
  set (deferred := {| promise := ref; resolve := resolve_function ref;
                      reject := reject_function ref |}).
  set (rt1 := {| heap := <[ref := Pending]> (heap rt); settlements := settlements rt |}).
  assert (heap rt1 !! ref = Some Pending) as Hpending by apply lookup_insert_eq.
  set (rt2 := {| heap := <[ref := Settled now (requested first)]> (heap rt1);
                 settlements := settlements rt1 ++ [(ref, now, requested first)] |}).
  assert (call_deferred deferred (now, first) rt1 = (Normal tt, rt2)) as Hfirst.
  { destruct first as [value | reason].
    - exact (settle_pending ref (Fulfilled value) now rt1 Hpending).
    - exact (settle_pending ref (Rejected reason) now rt1 Hpending). }
  assert (call_deferred_all deferred later rt2 = (map (λ _, Normal tt) later, rt2))
    as Hlater.
  { eapply call_deferred_all_settled; [done | done |]. apply lookup_insert_eq. }
  cbn [call_deferred_all]. rewrite Hfirst, Hlater. cbn [snd].
  change (promise deferred) with ref.
  repeat split.
  - unfold state_of. by rewrite Hpending.
  - unfold state_of, rt2. cbn [heap]. by rewrite lookup_insert_eq.
  - apply times_settled_snoc.
  - done.
Qed.

(** [resolve(1)], then [resolve(2)], then [reject('x')]: the promise is
    fulfilled with 1, once, and no call throws. *)
Example promiseDefer_resolve_1_resolve_2_reject_x :
  let '(deferred, rt) := promiseDefer empty_runtime in
  let '(completions, rt) :=
    call_deferred_all deferred
      [(1, CallResolve (VNumber (Num 1)));
       (2, CallResolve (VNumber (Num 2)));
       (3, CallReject (VString "x"))] rt in
  observe (promise deferred) rt = Settles 1 (Fulfilled (VNumber (Num 1)))
  ∧ times_settled (promise deferred) rt = 1
  ∧ completions = [Normal tt; Normal tt; Normal tt].
Proof. vm_compute. done. Qed.

End Deferred.

(** ** timeoutPromise *)

Section Timeout.

Implicit Types (s : TimeoutPromise) (rt : Runtime) (now t : Time).

Ltac run_callbacks :=
  unfold step, on_settled, on_timeout, Promise_then, Promise_catch,
    Promise_finally_sync, resolveBeforeTimeout, clearTimeout, call_resolver,
    with_runtime, resolve_function, reject_function, settle, optional;
  cbn.

Lemma step_timer s t deadline :
  heap (runtime s) !! returned s = Some Pending →
  timeout s = Armed deadline →
  step s (t, TimerElapses) =
    {| runtime :=
         {| heap := <[returned s := Settled t (Rejected timeout_marker)]> (heap (runtime s));
            settlements :=
              settlements (runtime s) ++ [(returned s, t, Rejected timeout_marker)] |};
       returned := returned s; timedOut := true; timeout := Fired;
       source := source s |}.
Proof.
  destruct s as [rt ref flag timer src]. cbn. intros Hpending ->.
  run_callbacks. by rewrite Hpending.
Qed.

Lemma step_source s t outcome :
  heap (runtime s) !! returned s = Some Pending →
  timedOut s = false →
  source s = Pending →
  step s (t, SourceSettles outcome) =
    {| runtime :=
         {| heap := <[returned s := Settled t (passed_on outcome)]> (heap (runtime s));
            settlements :=
              settlements (runtime s) ++ [(returned s, t, passed_on outcome)] |};
       returned := returned s; timedOut := false;
       timeout := match timeout s with Armed _ => Cleared | timer => timer end;
       source := Settled t outcome |}.
Proof.
  destruct s as [rt ref flag timer src]. cbn. intros Hpending -> ->.
  destruct outcome as [value | reason]; run_callbacks; by rewrite Hpending.
Qed.

(** Once decided, no event changes anything but what is known of the promise
    passed in: a settlement that comes late is discarded, and a timer that
    was cleared or has fired does not fire. *)
Lemma step_decided s e : decided s → same_but_source s (step s e) ∧ decided (step s e).
Proof.
  intros [(t0 & o0 & Hsettled) Htimer].
  assert (same_but_source s (step s e)) as Hsame.
  { destruct s as [rt ref flag timer src]. cbn in *.
    destruct e as [t [| outcome]].
    - destruct Htimer as [-> | ->]; by run_callbacks.
    - destruct src as [| ts os]; [| done].
      destruct outcome as [value | reason], flag;
        destruct Htimer as [-> | ->]; run_callbacks; rewrite ?Hsettled; done. }
  split; [done |].
  destruct Hsame as (Hrt & Href & _ & Htm).
  unfold decided. rewrite Hrt, Href, Htm. eauto.
Qed.

Lemma run_decided events : ∀ s,
  decided s → same_but_source s (run events s).
Proof.
  induction events as [|e rest IH]; intros s Hs; [done |].
  destruct (step_decided s e Hs) as [(Hrt & Href & Hflag & Htm) Hnext].
  destruct (IH _ Hnext) as (Hrt' & Href' & Hflag' & Htm').
  change (run (e :: rest) s) with (run rest (step s e)).
  unfold same_but_source. by rewrite Hrt', Href', Hflag', Htm'.
Qed.

Lemma timeoutPromise_start_pending time now rt :
  let s := timeoutPromise_start time now rt in
  heap (runtime s) !! returned s = Some Pending
  ∧ timedOut s = false ∧ timeout s = Armed (now + time) ∧ source s = Pending
  ∧ settlements (runtime s) = settlements rt.
Proof. cbn. by rewrite lookup_insert_eq. Qed.

Lemma observe_settled ref rt t outcome heap' log :
  observe ref {| heap := <[ref := Settled t outcome]> heap'; settlements := log |}
  = Settles t outcome.
Proof. unfold observe, state_of. cbn. by rewrite lookup_insert_eq. Qed.

Lemma settled_once_intro s0 s t outcome heap' :
  returned s = returned s0 →
  runtime s =
    {| heap := <[returned s0 := Settled t outcome]> heap';
       settlements := settlements (runtime s0) ++ [(returned s0, t, outcome)] |} →
  settled_once s0 s t outcome.
Proof.
  intros Href Hrt. unfold settled_once. rewrite Hrt. split; [done |]. split.
  - apply observe_settled; exact (runtime s0).
  - apply times_settled_snoc.
Qed.

(** When the timer elapses first, the promise returned is rejected with the
    timeout marker then, and nothing that follows changes it. *)
Lemma run_timer_first s0 deadline t rest :
  heap (runtime s0) !! returned s0 = Some Pending →
  timeout s0 = Armed deadline →
  let s := run ((t, TimerElapses) :: rest) s0 in
  settled_once s0 s t (Rejected timeout_marker)
  ∧ timedOut s = true ∧ timeout s = Fired.
Proof.
  intros Hpending Htimer.
  change (run ((t, TimerElapses) :: rest) s0) with (run rest (step s0 (t, TimerElapses))).
  pose proof (step_timer s0 t _ Hpending Htimer) as Hstep.
  assert (decided (step s0 (t, TimerElapses))) as Hdecided.
  { rewrite Hstep. split; [| by left]. cbn. rewrite lookup_insert_eq. eauto. }
  destruct (run_decided rest _ Hdecided) as (Hrt & Href & Hto & Htm).
  remember (run rest (step s0 (t, TimerElapses))) as s eqn:Hs. clear Hs.
  rewrite Hstep in Hrt, Href, Hto, Htm.
  cbn [runtime returned timedOut timeout] in Hrt, Href, Hto, Htm.
  cbv zeta. split; [| done].
  eapply settled_once_intro; [done |]. rewrite Hrt. done.
Qed.

(** When the promise passed in settles first, the promise returned settles
    then, the timer is cleared, and the timer callback never runs. *)
Lemma run_source_first s0 deadline t outcome rest :
  heap (runtime s0) !! returned s0 = Some Pending →
  timedOut s0 = false →
  timeout s0 = Armed deadline →
  source s0 = Pending →
  let s := run ((t, SourceSettles outcome) :: rest) s0 in
  settled_once s0 s t (passed_on outcome)
  ∧ timedOut s = false ∧ timeout s = Cleared.
Proof.
  intros Hpending Hflag Htimer Hsrc.
  change (run ((t, SourceSettles outcome) :: rest) s0)
    with (run rest (step s0 (t, SourceSettles outcome))).
  pose proof (step_source s0 t outcome Hpending Hflag Hsrc) as Hstep.
  rewrite Htimer in Hstep.
  assert (decided (step s0 (t, SourceSettles outcome))) as Hdecided.
  { rewrite Hstep. split; [| by right]. cbn. rewrite lookup_insert_eq. eauto. }
  destruct (run_decided rest _ Hdecided) as (Hrt & Href & Hto & Htm).
  remember (run rest (step s0 (t, SourceSettles outcome))) as s eqn:Hs. clear Hs.
  rewrite Hstep in Hrt, Href, Hto, Htm.
  cbn [runtime returned timedOut timeout] in Hrt, Href, Hto, Htm.
  cbv zeta. split; [| done].
  eapply settled_once_intro; [done |]. rewrite Hrt. done.
Qed.

Lemma times_settled_start time now rt :
  let s0 := timeoutPromise_start time now rt in
  times_settled (returned s0) (runtime s0) = times_settled (returned s0) rt.
Proof. reflexivity. Qed.

Lemma start_timer_first time now rt t rest :
  let s0 := timeoutPromise_start time now rt in
  let s := run ((t, TimerElapses) :: rest) s0 in
  settled_once s0 s t (Rejected timeout_marker)
  ∧ timedOut s = true ∧ timeout s = Fired.
Proof.
  destruct (timeoutPromise_start_pending time now rt)
    as (Hpending & Hflag & Htimer & Hsrc & _).
  by eapply run_timer_first.
Qed.

Lemma start_source_first time now rt t outcome rest :
  let s0 := timeoutPromise_start time now rt in
  let s := run ((t, SourceSettles outcome) :: rest) s0 in
  settled_once s0 s t (passed_on outcome)
  ∧ timedOut s = false ∧ timeout s = Cleared.
Proof.
  destruct (timeoutPromise_start_pending time now rt)
    as (Hpending & Hflag & Htimer & Hsrc & _).
  by eapply run_source_first.
Qed.

(** C5.  Whatever happens after a call and in whatever order, the caller
    sees the promise returned settle at most once.  If the timer elapses
    first the promise is rejected with the timeout marker, and a settlement
    of the promise passed in that comes later changes nothing.  If the
    promise passed in settles first, the promise returned settles then, the
    timer is cleared and its callback never runs: the timer is never found
    fired and [timedOut] stays false. *)
Theorem timeoutPromise_one_outcome time now rt :
  let s0 := timeoutPromise_start time now rt in
  (∀ events,
     returned (run events s0) = returned s0
     ∧ (times_settled (returned s0) (runtime (run events s0))
        ≤ S (times_settled (returned s0) (runtime s0)))%nat)
  ∧ (∀ t rest,
       let s := run ((t, TimerElapses) :: rest) s0 in
       settled_once s0 s t (Rejected timeout_marker)
       ∧ timedOut s = true ∧ timeout s = Fired)
  ∧ (∀ t outcome rest,
       let s := run ((t, SourceSettles outcome) :: rest) s0 in
       settled_once s0 s t (passed_on outcome)
       ∧ timedOut s = false ∧ timeout s = Cleared).
Proof.
  intros s0.
  pose proof (start_timer_first time now rt) as Htimer_first.
  pose proof (start_source_first time now rt) as Hsource_first.
  fold s0 in Htimer_first, Hsource_first.
  split; [| by split].
  intros [|[t [| outcome]] rest].
  - split; [done |]. cbn [run fold_left]. lia.
  - destruct (Htimer_first t rest) as ((Href & _ & Hcount) & _).
    split; [done |]. rewrite Hcount. lia.
  - destruct (Hsource_first t outcome rest) as ((Href & _ & Hcount) & _).
    split; [done |]. rewrite Hcount. lia.
Qed.

(** A promise that settles before the deadline (or had settled when the call
    was made) decides the promise returned: a rejection is passed on, a
    value is replaced by [undefined]. *)
Lemma timeoutPromise_in_time t outcome time timer_first now :
  (t < now + time ∨ t ≤ now)%nat →
  timeoutPromise (Settles t outcome) time timer_first now
  = Settles (Nat.max now t) (passed_on outcome).
Proof.
  intros Ht. unfold timeoutPromise, agenda.
  replace (Nat.ltb (now + time) (Nat.max now t)
           || (Nat.eqb (now + time) (Nat.max now t)
               && Nat.ltb now (Nat.max now t) && timer_first))
    with false.
  2:{ symmetry. apply orb_false_iff. split; [apply Nat.ltb_ge; lia |].
      destruct (Nat.eqb_spec (now + time) (Nat.max now t)) as [Heq | _]; [| done].
      replace (Nat.ltb now (Nat.max now t)) with false; [done |].
      symmetry. apply Nat.ltb_ge. lia. }
  destruct (start_source_first time now empty_runtime (Nat.max now t)
              outcome [(now + time, TimerElapses)]) as ((Href & Hobserve & _) & _).
  cbv beta iota zeta in Href |- *.
    exact (eq_trans (f_equal (λ ref, observe ref _) Href) Hobserve).
Qed.

(** A promise that settles after the deadline, or never, loses to the
    timer. *)
Lemma timeoutPromise_too_late (promise : Promise JSValue) time timer_first now :
  match promise with
  | Settles t _ => (now + time < t)%nat
  | Forever => True
  end →
  timeoutPromise promise time timer_first now
  = Settles (now + time) (Rejected timeout_marker).
Proof.
  intros Hlate. unfold timeoutPromise, agenda.
  destruct promise as [t outcome |].
  - replace (Nat.ltb (now + time) (Nat.max now t)) with true
      by (symmetry; apply Nat.ltb_lt; lia).
    cbn [orb].
    destruct (start_timer_first time now empty_runtime (now + time)
                [(Nat.max now t, SourceSettles outcome)]) as ((Href & Hobserve & _) & _).
    cbv beta iota zeta in Href |- *.
    exact (eq_trans (f_equal (λ ref, observe ref _) Href) Hobserve).
  - destruct (start_timer_first time now empty_runtime (now + time) [])
      as ((Href & Hobserve & _) & _).
    cbv beta iota zeta in Href |- *.
    exact (eq_trans (f_equal (λ ref, observe ref _) Href) Hobserve).
Qed.

(** C2 (code defect).  [resolveBeforeTimeout] calls [resolve()] without the
    value it was given: a promise fulfilled with 42 well before the deadline
    makes the promise returned fulfil with [undefined], not with 42.  The
    other half of the claim holds: past the deadline the promise returned is
    rejected with [{timeout: true}]. *)
Theorem timeoutPromise_drops_value :
  timeoutPromise (Settles 1 (Fulfilled (VNumber (Num 42)))) 1000 false 0
    = Settles 1 (Fulfilled VUndefined)
  ∧ timeoutPromise (Settles 1 (Fulfilled (VNumber (Num 42)))) 1000 true 0
    = Settles 1 (Fulfilled VUndefined)
  ∧ timeoutPromise (Settles 2000 (Fulfilled (VNumber (Num 42)))) 1000 false 0
    = Settles 1000 (Rejected (VObject [("timeout", VBool true)])).
Proof. split; [| split]; vm_compute; reflexivity. Qed.

End Timeout.

(** ** executeOrderedPromises *)

Section Ordered.

Implicit Types (now t : Time) (log : list JSValue) (data : OrderedPromiseData).
Implicit Types (s : Schedule) (dep : Promise JSValue).

Lemma start_task_unfold data t log :
  start_task data t log =
    match function data t with
    | Normal promise => (Normal (Some promise), log)
    | Abrupt e =>
        match get_message e with
        | Normal message => (Normal None, log ++ [message])
        | Abrupt thrown => (Abrupt thrown, log)
        end
    end.
Proof.
  unfold start_task, logger_error.
  destruct (function data t); [done |]. by destruct (get_message _).
Qed.

(** The callback of a task runs when its dependency settles, and only
    then. *)
Lemma Promise_finally_started dep data now log :
  (Promise_finally dep (start_task data) now log).2
  = option_map (Nat.max now) (settlement_time dep).
Proof.
  unfold Promise_finally. destruct dep as [t o |]; [| done].
  destruct (start_task data (Nat.max now t) log) as [[[q |] | e] log']; done.
Qed.

(** The promise of a task has settled only if the dependency had settled,
    the task was started then, and the promise the task returned has settled
    too. *)
Lemma Promise_finally_settled dep data now log t :
  settled_by t (Promise_finally dep (start_task data) now log).1.1 →
  ∃ start,
    option_map (Nat.max now) (settlement_time dep) = Some start
    ∧ (start ≤ t)%nat ∧ settled_by start dep
    ∧ (∀ returned, function data start = Normal returned → settled_by t returned).
Proof.
  unfold Promise_finally. destruct dep as [t0 o |]; [| done].
  rewrite start_task_unfold. cbn [settlement_time option_map].
  destruct (function data (Nat.max now t0)) as [returned | e] eqn:Hcall.
  - destruct returned as [t' [value | error] |]; cbn; [| | done];
      intros Ht; (eexists; split; [done |]; split; [lia |]; split; [lia |]);
      intros r Hr; rewrite Hcall in Hr; injection Hr as <-; cbn; lia.
  - destruct (get_message e); cbn; intros Ht;
      (eexists; split; [done |]; split; [lia |]; split; [lia |]);
      intros r Hr; rewrite Hcall in Hr; discriminate.
Qed.

(** What a task that returns a promise contributes. *)
Lemma Promise_finally_returned t o data now log (returned : Promise JSValue) :
  function data (Nat.max now t) = Normal returned →
  (Promise_finally (Settles t o) (start_task data) now log).1.1 =
    match returned with
    | Settles t' (Fulfilled _) => Settles (Nat.max (Nat.max now t) t') o
    | Settles t' (Rejected error) => Settles (Nat.max (Nat.max now t) t') (Rejected error)
    | Forever => Forever
    end.
Proof.
  intros Hcall. unfold Promise_finally. rewrite start_task_unfold, Hcall. done.
Qed.

Lemma schedule_task_started now s data :
  started (schedule_task now s data)
  = started s ++ [option_map (Nat.max now) (settlement_time (dependency s))].
Proof.
  unfold schedule_task.
  rewrite <- (Promise_finally_started (dependency s) data now (logger s)).
  by destruct (Promise_finally _ _ _ _) as [[promise log'] start].
Qed.

Lemma schedule_task_promises now s data :
  promises (schedule_task now s data)
  = promises s
    ++ [(Promise_finally (dependency s) (start_task data) now (logger s)).1.1].
Proof.
  unfold schedule_task.
  by destruct (Promise_finally _ _ _ _) as [[promise log'] start].
Qed.

Lemma schedule_task_dependency now s data :
  dependency (schedule_task now s data)
  = if is_blocking data
    then (Promise_finally (dependency s) (start_task data) now (logger s)).1.1
    else dependency s.
Proof.
  unfold schedule_task.
  by destruct (Promise_finally _ _ _ _) as [[promise log'] start].
Qed.

Lemma settlement_time_settled {A} (promise : Promise A) t :
  settled_by t promise → ∃ t', settlement_time promise = Some t' ∧ (t' ≤ t)%nat.
Proof. destruct promise as [t' o |]; [| done]. cbn. eauto. Qed.

(** C3, as amended.  With A blocking, B not blocking and C blocking, and A
    returning a promise: A is started at once; B and C are both started when
    A's promise settles, and never if it does not (C does not wait for B);
    and when the promise of the whole call settles, the promises returned by
    A, B and C have all settled. *)
Theorem executeOrderedPromises_blocking_holds_back
    (fA fB fC : Time → Completion (Promise JSValue)) now log
    (pA : Promise JSValue) :
  fA now = Normal pA →
  let r :=
    executeOrderedPromises
      [ {| function := fA; blocking := Some true |};
        {| function := fB; blocking := Some false |};
        {| function := fC; blocking := Some true |} ] now log in
  let start := option_map (Nat.max now) (settlement_time pA) in
  started r.2 = [Some now; start; start]
  ∧ (∀ t outcome,
       r.1 = Settles t outcome →
       settled_by t pA
       ∧ ∃ tA, start = Some tA ∧ (tA ≤ t)%nat
         ∧ (∀ pB, fB tA = Normal pB → settled_by t pB)
         ∧ (∀ pC, fC tA = Normal pC → settled_by t pC)).
Proof.
  intros HA r start.
  set (A := {| function := fA; blocking := Some true |}) in r.
  set (B := {| function := fB; blocking := Some false |}) in r.
  set (C := {| function := fC; blocking := Some true |}) in r.
  set (s0 := {| promises := []; dependency := Promise_resolve now VUndefined;
                logger := log; started := [] |}).
  set (s1 := schedule_task now s0 A).
  set (s2 := schedule_task now s1 B).
  set (s3 := schedule_task now s2 C).
  assert (r = (allPromises (Value (promises s3)) now, s3)) as -> by done.
  cbn [fst snd].
  set (p1 := (Promise_finally (dependency s0) (start_task A) now (logger s0)).1.1).
  assert (dependency s1 = p1) as Hdep1 by (unfold s1; by rewrite schedule_task_dependency).
  assert (dependency s2 = p1) as Hdep2
    by (unfold s2; by rewrite schedule_task_dependency, Hdep1).
  assert (p1 = match pA with
               | Settles t' (Fulfilled _) => Settles (Nat.max now t') (Fulfilled VUndefined)
               | Settles t' (Rejected error) => Settles (Nat.max now t') (Rejected error)
               | Forever => Forever
               end) as Hp1.
  { unfold p1, s0. cbn [dependency logger]. unfold Promise_resolve.
    erewrite Promise_finally_returned
      by (cbn [function A]; replace (Nat.max now now) with now by lia; exact HA).
    destruct pA as [t' [value | error] |]; [| | done]; f_equal; lia. }
  assert (option_map (Nat.max now) (settlement_time p1) = start) as Hstart.
  { rewrite Hp1. unfold start.
    destruct pA as [t' [value | error] |]; [| | done]; cbn; f_equal; lia. }
  split.
  - unfold s3, s2, s1. rewrite !schedule_task_started.
    fold s1. fold s2. rewrite Hdep1, Hdep2, Hstart. cbn.
    do 2 f_equal. lia.
  - intros t outcome Hall.
    apply allPromises_waits in Hall as [_ Hall].
    unfold s3, s2, s1 in Hall. rewrite !schedule_task_promises in Hall.
    fold s1 in Hall. fold s2 in Hall. rewrite Hdep1, Hdep2 in Hall. fold p1 in Hall.
    cbn [promises s0 app] in Hall.
    apply Forall_cons in Hall as [H1 Hall].
    apply Forall_cons in Hall as [H2 Hall].
    apply Forall_cons in Hall as [H3 _].
    apply Promise_finally_settled in H2 as (tB & HtB & HleB & _ & HB).
    apply Promise_finally_settled in H3 as (tC & HtC & HleC & _ & HC).
    rewrite Hstart in HtB, HtC. rewrite HtB in HtC. injection HtC as <-.
    split.
    + rewrite Hp1 in H1. destruct pA as [t' [value | error] |]; cbn in *; lia.
    + exists tB. done.
Qed.

Lemma executeOrderedPromises_blocking_holds_back_witness :
  started
    (executeOrderedPromises
       [ task_lasting 5 (Fulfilled VUndefined) (Some true);
         task_lasting 1 (Fulfilled VUndefined) (Some false);
         task_lasting 1 (Fulfilled VUndefined) (Some true) ] 0 []).2
  = [Some 0; Some 5; Some 5].
Proof.
  exact (proj1 (executeOrderedPromises_blocking_holds_back
                  (function (task_lasting 5 (Fulfilled VUndefined) (Some true)))
                  (function (task_lasting 1 (Fulfilled VUndefined) (Some false)))
                  (function (task_lasting 1 (Fulfilled VUndefined) (Some true)))
                  0 [] (Settles 5 (Fulfilled VUndefined)) eq_refl)).
Defined.

(** C3, as stated, fails: B is not started when A is.  With A taking five
    ticks, A is started at 0 and B at 5, once A has settled. *)
Lemma executeOrderedPromises_second_not_started_with_first :
  ¬ (∀ (fA fB fC : Time → Completion (Promise JSValue)) now log,
       let r :=
         executeOrderedPromises
           [ {| function := fA; blocking := Some true |};
             {| function := fB; blocking := Some false |};
             {| function := fC; blocking := Some true |} ] now log in
       ∀ tA tB,
         started r.2 !! 0%nat = Some (Some tA) →
         started r.2 !! 1%nat = Some (Some tB) →
         tB = tA).
Proof.
  intros Hclaim.
  specialize (Hclaim
    (function (task_lasting 5 (Fulfilled VUndefined) (Some true)))
    (function (task_lasting 1 (Fulfilled VUndefined) (Some false)))
    (function (task_lasting 1 (Fulfilled VUndefined) (Some true)))
    0 [] 0 5 eq_refl eq_refl).
  discriminate.
Qed.

(** What was logged before does not change what a task does. *)
Lemma Promise_finally_log_irrelevant dep data now log log' :
  (Promise_finally dep (start_task data) now log).1.1
  = (Promise_finally dep (start_task data) now log').1.1.
Proof.
  unfold Promise_finally. destruct dep as [t o |]; [| done].
  rewrite !start_task_unfold.
  destruct (function data (Nat.max now t)) as [[t' [value | error] |] | e]; try done.
  by destruct (get_message e).
Qed.

Lemma schedule_task_same now s s' data :
  same_schedule s s' →
  same_schedule (schedule_task now s data) (schedule_task now s' data).
Proof.
  intros (Hpromises & Hdep & Hstarted). unfold same_schedule.
  rewrite !schedule_task_promises, !schedule_task_dependency, !schedule_task_started.
  rewrite Hpromises, Hdep, Hstarted.
  by rewrite (Promise_finally_log_irrelevant _ _ _ (logger s) (logger s')).
Qed.

Lemma schedule_tasks_same now (tasks : list OrderedPromiseData) : ∀ s s',
  same_schedule s s' →
  same_schedule (fold_left (schedule_task now) tasks s)
                (fold_left (schedule_task now) tasks s').
Proof.
  induction tasks as [|data rest IH]; intros s s' Hsame; [done |].
  cbn [fold_left]. by apply IH, schedule_task_same.
Qed.

(** A task that throws a value whose [message] can be read is logged, and
    its promise settles as its dependency did: the value thrown is not in
    it. *)
Lemma schedule_task_throwing now s data t o e message :
  dependency s = Settles t o →
  function data (Nat.max now t) = Abrupt e →
  get_message e = Normal message →
  schedule_task now s data =
    {| promises := promises s ++ [Settles (Nat.max now t) o];
       dependency := if is_blocking data then Settles (Nat.max now t) o else dependency s;
       logger := logger s ++ [message];
       started := started s ++ [Some (Nat.max now t)] |}.
Proof.
  intros Hdep Hthrow Hmessage.
  unfold schedule_task, Promise_finally. rewrite Hdep, start_task_unfold.
  by rewrite Hthrow, Hmessage.
Qed.

(** For the schedule it is as if the task had done nothing. *)
Lemma schedule_task_throwing_idle now s data e message :
  (∀ t, function data t = Abrupt e) →
  get_message e = Normal message →
  same_schedule (schedule_task now s data)
                (schedule_task now s (task_idle (blocking data))).
Proof.
  intros Hthrow Hmessage. unfold same_schedule.
  rewrite !schedule_task_promises, !schedule_task_dependency, !schedule_task_started.
  assert ((Promise_finally (dependency s) (start_task data) now (logger s)).1.1
          = (Promise_finally (dependency s) (start_task (task_idle (blocking data)))
               now (logger s)).1.1) as ->.
  { unfold Promise_finally. destruct (dependency s) as [t o |]; [| done].
    rewrite !start_task_unfold, Hthrow, Hmessage. cbn. f_equal. lia. }
  done.
Qed.

(** A value thrown by a task when it is called, if its [message] can be
    read, does not reach the promise of the whole call, and the other tasks
    are started as if the task had done nothing. *)
Lemma executeOrderedPromises_throw_absorbed
    (before after : list OrderedPromiseData) data now log e message :
  (∀ t, function data t = Abrupt e) →
  get_message e = Normal message →
  let r := executeOrderedPromises (before ++ data :: after) now log in
  let r' :=
    executeOrderedPromises (before ++ task_idle (blocking data) :: after) now log in
  r.1 = r'.1 ∧ same_schedule r.2 r'.2.
Proof.
  intros Hthrow Hmessage r r'.
  assert (same_schedule r.2 r'.2) as Hsame.
  { unfold r, r', executeOrderedPromises, schedule_all. cbn [snd].
    rewrite !fold_left_app. cbn [fold_left].
    by eapply schedule_tasks_same, schedule_task_throwing_idle. }
  split; [| done].
  unfold r, r', executeOrderedPromises in *. cbn [fst snd] in *.
  destruct Hsame as (-> & _). done.
Qed.

(** C4 (code defect).  The handler logs [e.message], and reading a property
    of [undefined] or [null] throws: a task that throws [undefined] is not
    logged, the [TypeError] escapes the callback, the promise of the task
    rejects with it, and so does the promise of the whole call.  The other
    task is still started.  For a thrown [Error] the claim holds: the
    message is logged and the whole call fulfils. *)
Theorem executeOrderedPromises_throw_undefined :
  let r :=
    executeOrderedPromises
      [ task_throwing VUndefined (Some true);
        task_lasting 1 (Fulfilled VUndefined) None ] 0 [] in
  let r' :=
    executeOrderedPromises
      [ task_throwing (new_Error "boom") (Some true);
        task_lasting 1 (Fulfilled VUndefined) None ] 0 [] in
  r.1 = Settles 1
          (Rejected (TypeError "Cannot read properties of undefined (reading 'message')"))
  ∧ logger r.2 = []
  ∧ started r.2 = [Some 0; Some 0]
  ∧ r'.1 = Settles 1 (Fulfilled VUndefined)
  ∧ logger r'.2 = [VString "boom"]
  ∧ started r'.2 = [Some 0; Some 0].
Proof. vm_compute. done. Qed.

End Ordered.

(** * More properties of the service *)

(** ** allPromises, promiseFails, promiseWorks *)

Section MorePromises.

Implicit Types (promises : list (Promise JSValue)) (now t : Time).

Lemma find_truthy_first_rejected promises :
  Forall truthy_reason promises →
  find truthy (map error_of promises) = first_rejected promises.
Proof.
  induction 1 as [|promise rest Hpromise _ IH]; [done |].
  destruct promise as [t [value | error] |]; cbn in *; [done | | done].
  by rewrite Hpromise.
Qed.

(** X1.  When every promise settles and no rejection reason is falsy, the
    aggregate settles when the last promise does: rejected with the reason
    of the first rejected promise in array order if there is one, fulfilled
    otherwise. *)
Theorem allPromises_reports_first_rejection promises now t :
  last_settlement promises = Some t →
  Forall truthy_reason promises →
  allPromises (Value promises) now =
    Settles (Nat.max now t)
      match first_rejected promises with
      | Some error => Rejected error
      | None => Fulfilled VUndefined
      end.
Proof.
  intros Hlast Htruthy.
  rewrite allPromises_unfold. cbn [array_of].
  by rewrite Hlast, find_truthy_first_rejected.
Qed.

Lemma allPromises_reports_first_rejection_witness :
  allPromises
    (Value [Settles 4 (Fulfilled VNull);
            Settles 2 (Rejected (new_Error "a"));
            Settles 7 (Rejected (VString "b"))]) 1
  = Settles 7 (Rejected (new_Error "a")).
Proof.
  apply (allPromises_reports_first_rejection
           [Settles 4 (Fulfilled VNull);
            Settles 2 (Rejected (new_Error "a"));
            Settles 7 (Rejected (VString "b"))] 1 7).
  - reflexivity.
  - repeat constructor.
Defined.

Lemma last_settlement_never {A} (ps : list (Promise A)) :
  last_settlement ps = None ↔ Forever ∈ ps.
Proof.
  induction ps as [|p rest IH]; cbn.
  - split; [done | by intros ?%elem_of_nil].
  - destruct p as [t o |].
    + destruct (last_settlement rest) as [t' |].
      * split; [done |]. intros [? | Hin]%elem_of_cons; [done |].
        by apply IH in Hin.
      * split; [| done]. intros _. apply elem_of_cons. right. by apply IH.
    + split; [| done]. intros _. apply elem_of_cons. by left.
Qed.

(** X2.  Whatever the outcomes, the aggregate settles exactly when the last
    of the promises does (at once for none), and stays pending for ever if
    and only if one of them does. *)
Theorem allPromises_settles_with_the_last (arg : Nullable (list (Promise JSValue))) now :
  settlement_time (allPromises arg now)
    = option_map (Nat.max now) (last_settlement (array_of arg))
  ∧ (allPromises arg now = Forever ↔ Forever ∈ array_of arg).
Proof.
  rewrite allPromises_unfold, <- last_settlement_never.
  destruct (last_settlement (array_of arg)) as [t |]; cbn; [| done].
  split; [done |]. split; discriminate.
Qed.

(** X3.  [promiseFails] and [promiseWorks] never reject; both settle when
    the promise does, with a boolean, and the two booleans are opposite:
    [promiseFails] gives [true] exactly for a rejected promise. *)
Theorem promiseFails_promiseWorks_opposite (promise : Promise JSValue) now :
  ¬ rejects (promiseFails promise now)
  ∧ ¬ rejects (promiseWorks promise now)
  ∧ settlement_time (promiseFails promise now)
    = option_map (Nat.max now) (settlement_time promise)
  ∧ ∃ failed : bool,
      (failed = true ↔ rejects promise)
      ∧ ∀ t, settlement_time promise = Some t →
          promiseFails promise now = Settles (Nat.max now t) (Fulfilled (VBool failed))
          ∧ promiseWorks promise now
            = Settles (Nat.max now t) (Fulfilled (VBool (negb failed))).
Proof.
  destruct promise as [t [value | error] |]; cbn.
  - repeat split; try tauto. exists false. split; [split; [done | tauto] |].
    by intros ? [= <-].
  - repeat split; try tauto. exists true. split; [split; done |].
    by intros ? [= <-].
  - repeat split; try tauto. exists false. split; [split; [done | tauto] |]. done.
Qed.

End MorePromises.

(** ** timeoutPromise and wait *)

Section MoreTimeout.

Implicit Types (now t : Time) (time : nat).

(** What the call returns for every promise, deadline and order of the
    event loop. *)
Lemma timeoutPromise_unfold (promise : Promise JSValue) time timer_first now :
  timeoutPromise promise time timer_first now =
    match promise with
    | Forever => Settles (now + time) (Rejected timeout_marker)
    | Settles t outcome =>
        if Nat.ltb (now + time) (Nat.max now t)
           || (Nat.eqb (now + time) (Nat.max now t)
               && Nat.ltb now (Nat.max now t) && timer_first)
        then Settles (now + time) (Rejected timeout_marker)
        else Settles (Nat.max now t) (passed_on outcome)
    end.
Proof.
  unfold timeoutPromise, agenda.
  destruct promise as [t outcome |].
  - destruct (Nat.ltb (now + time) (Nat.max now t)
              || (Nat.eqb (now + time) (Nat.max now t)
                  && Nat.ltb now (Nat.max now t) && timer_first)).
    + destruct (start_timer_first time now empty_runtime (now + time)
                  [(Nat.max now t, SourceSettles outcome)])
        as ((Href & Hobserve & _) & _).
      cbv beta iota zeta in Href |- *.
      exact (eq_trans (f_equal (λ ref, observe ref _) Href) Hobserve).
    + destruct (start_source_first time now empty_runtime (Nat.max now t)
                  outcome [(now + time, TimerElapses)])
        as ((Href & Hobserve & _) & _).
      cbv beta iota zeta in Href |- *.
      exact (eq_trans (f_equal (λ ref, observe ref _) Href) Hobserve).
  - destruct (start_timer_first time now empty_runtime (now + time) [])
      as ((Href & Hobserve & _) & _).
    cbv beta iota zeta in Href |- *.
    exact (eq_trans (f_equal (λ ref, observe ref _) Href) Hobserve).
Qed.

(** X4.  The promise returned never hangs: whatever the promise passed in
    does, even if it never settles, the promise returned settles, not before
    the call and not after the deadline. *)
Theorem timeoutPromise_settles_by_the_deadline
    (promise : Promise JSValue) time timer_first now :
  ∃ t outcome,
    timeoutPromise promise time timer_first now = Settles t outcome
    ∧ (now ≤ t)%nat ∧ (t ≤ now + time)%nat.
Proof.
  rewrite timeoutPromise_unfold.
  destruct promise as [t outcome |]; [| eexists _, _; split; [done | lia]].
  destruct (Nat.ltb (now + time) (Nat.max now t)
            || (Nat.eqb (now + time) (Nat.max now t)
                && Nat.ltb now (Nat.max now t) && timer_first)) eqn:Hfirst.
  - eexists _, _. split; [done | lia].
  - eexists _, _. split; [done |].
    apply orb_false_iff in Hfirst as [Hlt%Nat.ltb_ge _]. lia.
Qed.







End MoreTimeout.

(** ** executeOrderedPromises on any list of tasks *)

Section MoreOrdered.

Implicit Types (now t : Time) (log : list JSValue) (data : OrderedPromiseData).
Implicit Types (s : Schedule) (tasks : list OrderedPromiseData).

Lemma schedule_all_app now tasks (more : list OrderedPromiseData) log :
  schedule_all now (tasks ++ more) log
  = fold_left (schedule_task now) more (schedule_all now tasks log).
Proof. unfold schedule_all. by rewrite fold_left_app. Qed.

(** Scheduling only appends to the lists of promises and of start times,
    and to the log. *)
Lemma schedule_tasks_extend now tasks : ∀ s,
  ∃ ps ts ms,
    promises (fold_left (schedule_task now) tasks s) = promises s ++ ps
    ∧ started (fold_left (schedule_task now) tasks s) = started s ++ ts
    ∧ logger (fold_left (schedule_task now) tasks s) = logger s ++ ms.
Proof.
  induction tasks as [|data rest IH]; intros s.
  - exists [], [], []. by rewrite !app_nil_r.
  - cbn [fold_left].
    destruct (IH (schedule_task now s data)) as (ps & ts & ms & -> & -> & ->).
    rewrite schedule_task_promises, schedule_task_started.
    assert (∃ m, logger (schedule_task now s data) = logger s ++ m) as [m ->].
    { unfold schedule_task, Promise_finally.
      destruct (dependency s) as [t o |]; [| exists []; by rewrite app_nil_r].
      rewrite start_task_unfold.
      destruct (function data (Nat.max now t)) as [[t' [v | e'] |] | e];
        try (exists []; by rewrite app_nil_r).
      destruct (get_message e); [by eexists | exists []; by rewrite app_nil_r]. }
    eexists _, _, _. by rewrite <- !app_assoc.
Qed.

Lemma schedule_all_lengths now tasks log :
  length (promises (schedule_all now tasks log)) = length tasks
  ∧ length (started (schedule_all now tasks log)) = length tasks.
Proof.
  induction tasks as [|data rest IH] using rev_ind; [done |].
  rewrite schedule_all_app. cbn [fold_left].
  rewrite schedule_task_promises, schedule_task_started, !length_app.
  cbn. lia.
Qed.

(** The promise and the start time of the task after [before]: the task is
    started when the dependency left by [before] settles. *)
Lemma schedule_all_lookup now (before after : list OrderedPromiseData) data log :
  let s0 := schedule_all now before log in
  let s := schedule_all now (before ++ data :: after) log in
  promises s !! length before
    = Some (Promise_finally (dependency s0) (start_task data) now (logger s0)).1.1
  ∧ started s !! length before
    = Some (option_map (Nat.max now) (settlement_time (dependency s0))).
Proof.
  intros s0 s. unfold s.
  rewrite schedule_all_app. cbn [fold_left]. fold s0.
  destruct (schedule_tasks_extend now after (schedule_task now s0 data))
    as (ps & ts & _ & -> & -> & _).
  rewrite schedule_task_promises, schedule_task_started.
  destruct (schedule_all_lengths now before log) as [Hps Hts]. fold s0 in Hps, Hts.
  rewrite <- !app_assoc. cbn [app]. split.
  - by apply list_lookup_middle.
  - by apply list_lookup_middle.
Qed.

Lemma schedule_all_snoc_dependency now (before : list OrderedPromiseData) data log :
  let s0 := schedule_all now before log in
  dependency (schedule_all now (before ++ [data]) log)
  = if is_blocking data
    then (Promise_finally (dependency s0) (start_task data) now (logger s0)).1.1
    else dependency s0.
Proof.
  intros s0. rewrite schedule_all_app. cbn [fold_left].
  by rewrite schedule_task_dependency.
Qed.

(** X8.  The scheduling rule, for any list of tasks.  The first task is
    started at once.  A task that follows a task that is not blocking is
    started at the same time as that one; a task that follows a blocking
    task is started when the promise of that task settles, and never if it
    does not. *)
Theorem executeOrderedPromises_scheduling_rule tasks now log :
  let s := (executeOrderedPromises tasks now log).2 in
  (tasks ≠ [] → started s !! 0%nat = Some (Some now))
  ∧ ∀ (i : nat) data next,
      tasks !! i = Some data →
      tasks !! S i = Some next →
      if is_blocking data
      then ∃ p, promises s !! i = Some p
                ∧ started s !! S i = Some (option_map (Nat.max now) (settlement_time p))
      else started s !! S i = started s !! i.
Proof.
  intros s. unfold s, executeOrderedPromises. cbn [snd]. split.
  - destruct tasks as [|data rest]; [done |]. intros _.
    destruct (schedule_all_lookup now [] rest data log) as [_ Hstart].
    etrans; [exact Hstart |]. cbn. do 2 f_equal. lia.
  - intros i data next Hdata Hnext.
    apply list_elem_of_split_length in Hdata as (before & after & -> & ->).
    assert (after !! 0%nat = Some next) as Hafter.
    { rewrite <- Hnext, lookup_app_r by lia.
      replace (S (length before) - length before)%nat with 1%nat by lia. done. }
    destruct after as [|next' after]; [done |]. injection Hafter as ->.
    destruct (schedule_all_lookup now before (next :: after) data log)
      as [Hpromise Hstart].
    pose proof (schedule_all_lookup now (before ++ [data]) after next log)
      as [_ Hnext_start].
    rewrite <- app_assoc in Hnext_start. cbn [app] in Hnext_start.
    rewrite length_app in Hnext_start. cbn [length] in Hnext_start.
    replace (length before + 1)%nat with (S (length before)) in Hnext_start by lia.
    rewrite schedule_all_snoc_dependency in Hnext_start.
    destruct (is_blocking data).
    + eexists. split; [exact Hpromise | exact Hnext_start].
    + etrans; [exact Hnext_start | symmetry; exact Hstart].
Qed.

Lemma executeOrderedPromises_scheduling_rule_witness :
  started
    (executeOrderedPromises
       [ task_lasting 3 (Fulfilled VUndefined) None;
         task_lasting 1 (Fulfilled VUndefined) (Some true) ] 2 []).2 !! 0%nat
  = Some (Some 2).
Proof.
  apply (executeOrderedPromises_scheduling_rule
           [ task_lasting 3 (Fulfilled VUndefined) None;
             task_lasting 1 (Fulfilled VUndefined) (Some true) ] 2 []).
  discriminate.
Defined.

(** X9.  When the promise of the whole call settles, every task has been
    started, not before the call and not after that time, and the promise
    each task returned has settled by then. *)
Theorem executeOrderedPromises_waits_for_every_task tasks now log t
    (outcome : Outcome JSValue) :
  (executeOrderedPromises tasks now log).1 = Settles t outcome →
  ∀ (i : nat) data,
    tasks !! i = Some data →
    ∃ start,
      started (executeOrderedPromises tasks now log).2 !! i = Some (Some start)
      ∧ (now ≤ start)%nat ∧ (start ≤ t)%nat
      ∧ ∀ returned, function data start = Normal returned → settled_by t returned.
Proof.
  unfold executeOrderedPromises. cbn [fst snd].
  intros [_ Hall]%allPromises_waits i data Hdata.
  apply list_elem_of_split_length in Hdata as (before & after & -> & ->).
  destruct (schedule_all_lookup now before after data log) as [Hpromise Hstart].
  rewrite Forall_lookup in Hall. apply Hall in Hpromise.
  apply Promise_finally_settled in Hpromise as (start & Hsome & Hle & _ & Hreturned).
  exists start. rewrite Hstart, Hsome. split; [done |]. split; [| done].
  destruct (dependency (schedule_all now before log)) as [t0 o |]; [| done].
  cbn in Hsome. injection Hsome as <-. lia.
Qed.

Lemma executeOrderedPromises_waits_for_every_task_witness :
  ∃ start,
    started
      (executeOrderedPromises
         [ task_lasting 3 (Fulfilled VUndefined) (Some true);
           task_lasting 4 (Rejected (new_Error "late")) None ] 1 []).2 !! 1%nat
    = Some (Some start)
    ∧ (1 ≤ start)%nat ∧ (start ≤ 8)%nat
    ∧ ∀ returned,
        function (task_lasting 4 (Rejected (new_Error "late")) None) start
        = Normal returned →
        settled_by 8 returned.
Proof.
  apply (executeOrderedPromises_waits_for_every_task
           [ task_lasting 3 (Fulfilled VUndefined) (Some true);
             task_lasting 4 (Rejected (new_Error "late")) None ] 1 [] 8
           (Rejected (new_Error "late")) eq_refl 1%nat
           (task_lasting 4 (Rejected (new_Error "late")) None) eq_refl).
Defined.

(** X10.  A task that throws a value whose [message] can be read, whenever
    it is called: the promise of the whole call and the start times of all
    tasks are those of the same list with a task that does nothing in its
    place, and if the task was started the message has been logged. *)
Theorem executeOrderedPromises_logs_and_absorbs
    (before after : list OrderedPromiseData) data now log (e message : JSValue) :
  (∀ t, function data t = Abrupt e) →
  get_message e = Normal message →
  let r := executeOrderedPromises (before ++ data :: after) now log in
  let r' :=
    executeOrderedPromises (before ++ task_idle (blocking data) :: after) now log in
  r.1 = r'.1
  ∧ started r.2 = started r'.2
  ∧ (∀ start, started r.2 !! length before = Some (Some start) →
       message ∈ logger r.2).
Proof.
  intros Hthrow Hmessage r r'.
  destruct (executeOrderedPromises_throw_absorbed before after data now log e message
              Hthrow Hmessage) as (Hsame & _ & _ & Hstarted).
  fold r r' in Hsame, Hstarted. split; [done |]. split; [done |].
  intros start Hstart. unfold r, executeOrderedPromises in *. cbn [snd] in *.
  destruct (schedule_all_lookup now before after data log) as [_ Hlookup].
  pose proof (eq_trans (eq_sym Hlookup) Hstart) as Hsettled.
  destruct (dependency (schedule_all now before log)) as [t o |] eqn:Hdep; [| done].
  rewrite schedule_all_app. cbn [fold_left].
  destruct (schedule_tasks_extend now after
              (schedule_task now (schedule_all now before log) data))
    as (_ & _ & ms & _ & _ & ->).
  rewrite (schedule_task_throwing now _ data t o e message Hdep (Hthrow _) Hmessage).
  cbn [logger]. set_solver.
Qed.

Lemma executeOrderedPromises_logs_and_absorbs_witness :
  VString "boom"
  ∈ logger
      (executeOrderedPromises
         ([] ++ task_throwing (new_Error "boom") (Some true)
             :: [task_lasting 1 (Fulfilled VUndefined) None]) 0 []).2.
Proof.
  apply (executeOrderedPromises_logs_and_absorbs []
           [task_lasting 1 (Fulfilled VUndefined) None]
           (task_throwing (new_Error "boom") (Some true)) 0 []
           (new_Error "boom") (VString "boom") (λ _, eq_refl) eq_refl) with 0%nat.
  reflexivity.
Defined.

End MoreOrdered.

(** ** getUniqueId, promiseDefer and stopScanQR *)

Section MoreState.

Implicit Types (rt : Runtime) (ref : nat) (now : Time).

Lemma call_numbers_lookup (names : list string) : ∀ (seen : list string) (i : nat) name,
  names !! i = Some name →
  call_numbers seen names !! i
  = Some (Num (Z.of_nat (S (count_occ String.string_dec seen name
                            + count_occ String.string_dec (take i names) name)))).
Proof.
  induction names as [|first rest IH]; intros seen i name Hi; [done |].
  destruct i as [|i]; cbn in Hi.
  - injection Hi as ->. cbn. do 3 f_equal. lia.
  - cbn [call_numbers take]. rewrite lookup_cons. rewrite (IH _ _ _ Hi).
    cbn [count_occ]. destruct (String.string_dec first name); do 3 f_equal; lia.
Qed.

(** X11.  In any sequence of calls for names that are not those of members
    of [Object.prototype], a call returns one more than the number of earlier
    calls for the same name: the n-th call for a name returns n, whatever the
    calls for other names in between. *)
Theorem getUniqueId_counts_earlier_calls (names : list string) (i : nat) name :
  Forall (λ name, inherited name = false) names →
  names !! i = Some name →
  (getUniqueIds names ∅).1 !! i
  = Some (Num (Z.of_nat (S (count_occ String.string_dec (take i names) name)))).
Proof.
  intros Hnames Hi.
  rewrite (getUniqueIds_own names [] ∅ Hnames).
  - by rewrite (call_numbers_lookup names [] i name Hi).
  - intros k _. cbn. apply lookup_empty.
Qed.

Lemma getUniqueId_counts_earlier_calls_witness :
  (getUniqueIds ["quiz"; "forum"; "quiz"; "quiz"] ∅).1 !! 3%nat = Some (Num 3).
Proof.
  apply (getUniqueId_counts_earlier_calls ["quiz"; "forum"; "quiz"; "quiz"] 3 "quiz").
  - repeat constructor.
  - reflexivity.
Defined.

Lemma settle_other ref ref' outcome now rt :
  ref' ≠ ref →
  state_of ref' (settle ref outcome now rt).2 = state_of ref' rt
  ∧ times_settled ref' (settle ref outcome now rt).2 = times_settled ref' rt.
Proof.
  intros Hne. unfold settle.
  destruct (heap rt !! ref) as [[| t o] |]; [| done | done].
  unfold state_of, times_settled. cbn. split.
  - by rewrite lookup_insert_ne.
  - rewrite filter_app, length_app. cbn.
    rewrite decide_False by (cbn; congruence). cbn. lia.
Qed.

Lemma call_deferred_all_other ref' (calls : list (Time * DeferredCall)) :
  ∀ deferred rt,
    resolve deferred = resolve_function (promise deferred) →
    reject deferred = reject_function (promise deferred) →
    ref' ≠ promise deferred →
    state_of ref' (call_deferred_all deferred calls rt).2 = state_of ref' rt
    ∧ times_settled ref' (call_deferred_all deferred calls rt).2 = times_settled ref' rt.
Proof.
  intros deferred rt Hresolve Hreject Hne. revert rt.
  induction calls as [|[now c] rest IH]; intros rt; [done |].
  cbn [call_deferred_all].
  destruct (call_deferred deferred (now, c) rt) as [completion rt'] eqn:Hcall.
  assert (state_of ref' rt' = state_of ref' rt
          ∧ times_settled ref' rt' = times_settled ref' rt) as [Hstate Htimes].
  { destruct c as [value | reason]; cbn in Hcall.
    - rewrite Hresolve in Hcall.
      pose proof (settle_other (promise deferred) ref' (Fulfilled value) now rt Hne) as H.
      unfold resolve_function in Hcall. by rewrite Hcall in H.
    - rewrite Hreject in Hcall.
      pose proof (settle_other (promise deferred) ref' (Rejected reason) now rt Hne) as H.
      unfold reject_function in Hcall. by rewrite Hcall in H. }
  specialize (IH rt').
  destruct (call_deferred_all deferred rest rt') as [completions rt''].
  cbn [snd] in *. destruct IH as [-> ->]. done.
Qed.

(** X12.  The promise of a new deferred is a new one, pending, and the other
    promises are left as they were; and no call to [resolve] or [reject] of
    the deferred ever touches another promise. *)
Theorem promiseDefer_separate rt (calls : list (Time * DeferredCall)) :
  let '(deferred, rt1) := promiseDefer rt in
  heap rt !! promise deferred = None
  ∧ state_of (promise deferred) rt1 = Pending
  ∧ ∀ ref, ref ≠ promise deferred →
      state_of ref (call_deferred_all deferred calls rt1).2 = state_of ref rt
      ∧ times_settled ref (call_deferred_all deferred calls rt1).2
        = times_settled ref rt.
Proof.
  rewrite promiseDefer_unfold. cbv zeta.
  set (ref := fresh (dom (heap rt))).
  assert (heap rt !! ref = None) as Hfresh.
  { apply not_elem_of_dom. apply is_fresh. }
  split; [done |]. split.
  - unfold state_of. cbn. by rewrite lookup_insert_eq.
  - intros ref' Hne.
    set (deferred := {| promise := ref; resolve := resolve_function ref;
                        reject := reject_function ref |}).
    destruct (call_deferred_all_other ref' calls deferred
                {| heap := <[ref := Pending]> (heap rt); settlements := settlements rt |}
                eq_refl eq_refl Hne) as [-> ->].
    split; [| done]. unfold state_of. cbn. by rewrite lookup_insert_ne.
Qed.

Lemma promiseDefer_separate_witness :
  let '(first, rt) := promiseDefer empty_runtime in
  let '(second, rt1) := promiseDefer rt in
  state_of (promise first)
    (call_deferred_all second [(1, CallResolve VNull); (2, CallReject VNull)] rt1).2
  = state_of (promise first) rt.
Proof.
  refine (proj1 (proj2 (proj2
            (promiseDefer_separate (promiseDefer empty_runtime).2
               [(1, CallResolve VNull); (2, CallReject VNull)]))
            (promise (promiseDefer empty_runtime).1) _)).
  vm_compute. discriminate.
Defined.

(** X13.  Stopping a scan that has just been started settles its promise
    then, once: rejected with the data when it is flagged as an error,
    fulfilled with the data when there is some, rejected as cancelled when
    there is none; the scan is forgotten, and stopping again, with whatever
    arguments, changes nothing. *)
Theorem stopScanQR_settles_the_scan_once rt (canceled : JSValue)
    (data : option JSValue) (error : option bool) now :
  let '(deferred, rt1) := promiseDefer rt in
  let s := stopScanQR canceled data error now
             {| qrScanData := Some deferred; scan_runtime := rt1 |} in
  qrScanData s = None
  ∧ observe (promise deferred) (scan_runtime s)
    = Settles now (scan_outcome canceled data error)
  ∧ times_settled (promise deferred) (scan_runtime s)
    = S (times_settled (promise deferred) rt1)
  ∧ ∀ data' error' now', stopScanQR canceled data' error' now' s = s.
Proof.
  rewrite promiseDefer_unfold. cbv beta iota zeta.
  set (ref := fresh (dom (heap rt))).
  set (rt1 := {| heap := <[ref := Pending]> (heap rt); settlements := settlements rt |}).
  assert (heap rt1 !! ref = Some Pending) as Hpending by apply lookup_insert_eq.
  assert (∀ outcome,
            (settle ref outcome now rt1).2 =
              {| heap := <[ref := Settled now outcome]> (heap rt1);
                 settlements := settlements rt1 ++ [(ref, now, outcome)] |}) as Hsettle.
  { intros outcome. by rewrite settle_pending. }
  assert ((stopScanQR canceled data error now
             {| qrScanData :=
                  Some {| promise := ref; resolve := resolve_function ref;
                          reject := reject_function ref |};
                scan_runtime := rt1 |})
          = {| qrScanData := None;
               scan_runtime := (settle ref (scan_outcome canceled data error) now rt1).2 |})
    as ->.
  { unfold stopScanQR, scan_outcome, resolve_function, reject_function. cbn.
    destruct error as [[|] |], data as [[] |]; reflexivity. }
  rewrite Hsettle. cbn [qrScanData scan_runtime promise].
  split; [done |]. split; [apply observe_settled; exact rt |].
  split; [apply times_settled_snoc | done].
Qed.

End MoreState.

(** ** debounce *)

Section MoreDebounce.

Implicit Types (s : Debounce) (calls : list (Time * list JSValue)).
Implicit Types (delay : nat) (timer_first : bool).

Lemma clear_timer_nil (id : option nat) : clear_timer id [] = [].
Proof. by destruct id. Qed.

(** One call: the timer of the call before runs first if it is due, and is
    cleared otherwise; the only timer left is the one of this call. *)
Lemma debounced_one_timer delay timer_first s pending t (args : list JSValue) :
  one_timer s pending →
  let s' := debounced delay args t (run_timers (is_due timer_first t) s) in
  one_timer s' (Some (t + delay, args))
  ∧ invocations s' =
      invocations s
      ++ match pending with
         | Some (deadline, earlier) =>
             if is_due timer_first t deadline then [(deadline, earlier)] else []
         | None => []
         end.
Proof.
  intros Hone. destruct pending as [[deadline earlier] |]; cbn in Hone.
  - destruct Hone as (id & Htimers & Hid).
    unfold debounced, run_timers. cbn. rewrite Htimers, Hid. cbn.
    destruct (is_due timer_first t deadline); cbn.
    + split; [by eexists | done].
    + rewrite Nat.eqb_refl. cbn. split; [by eexists | done].
  - unfold debounced, run_timers. cbn. rewrite Hone. cbn.
    rewrite clear_timer_nil. split; [by eexists | done].
Qed.

Lemma debounce_calls_forwarded delay timer_first calls : ∀ s pending,
  one_timer s pending →
  invocations (debounce_calls delay timer_first calls s)
  = invocations s ++ forwarded_after delay timer_first pending calls.
Proof.
  induction calls as [|[t args] rest IH]; intros s pending Hone.
  - cbn. destruct pending as [[deadline earlier] |]; cbn in Hone.
    + destruct Hone as (id & -> & _). done.
    + by rewrite Hone.
  - cbn [debounce_calls forwarded_after].
    destruct (debounced_one_timer delay timer_first s pending t args Hone)
      as [Hnext Hinvocations].
    rewrite (IH _ _ Hnext), Hinvocations. by rewrite <- app_assoc.
Qed.


Lemma is_due_early timer_first t deadline :
  (t < deadline)%nat → is_due timer_first t deadline = false.
Proof.
  intros Ht. unfold is_due.
  replace (Nat.ltb deadline t) with false by (symmetry; apply Nat.ltb_ge; lia).
  replace (Nat.eqb deadline t) with false by (symmetry; apply Nat.eqb_neq; lia).
  done.
Qed.

Lemma forwarded_after_rapid delay timer_first calls : ∀ pending t (args : list JSValue),
  rapid delay (calls ++ [(t, args)]) →
  match pending, calls ++ [(t, args)] with
  | Some (deadline, _), (first, _) :: _ => (first < deadline)%nat
  | _, _ => True
  end →
  forwarded_after delay timer_first pending (calls ++ [(t, args)])
  = [(t + delay, args)].
Proof.
  induction calls as [|[t0 args0] rest IH]; intros pending t args Hrapid Hpending.
  - cbn in *. destruct pending as [[deadline earlier] |]; [| done].
    by rewrite is_due_early.
  - cbn [app forwarded_after] in *.
    destruct Hrapid as [Hnext Hrapid].
    rewrite (IH (Some (t0 + delay, args0)) t args Hrapid).
    + destruct pending as [[deadline earlier] |]; [| done].
      by rewrite is_due_early.
    + destruct (rest ++ [(t, args)]) as [|[t1 args1] more]; done.
Qed.



End MoreDebounce.

(** ** hasRepeatedFilenames, indexOfRegexp, filterByRegexp *)

Section MoreLists.

Implicit Types (files : list File) (names seen : list string).
Implicit Types (instant : string → string) (regex : RegExp).

Lemma repeated_after_none instant files : ∀ seen,
  repeated_after instant seen files = None
  ↔ NoDup (file_name <$> files) ∧ ∀ file, file ∈ files → file_name file ∉ seen.
Proof.
  induction files as [|file rest IH]; intros seen; cbn.
  - split; [| done]. intros _. split; [constructor | by intros ? ?%elem_of_nil].
  - case_bool_decide as Hin.
    + split; [done |]. intros [_ Hnot]. exfalso.
      apply (Hnot file); [by left | done].
    + rewrite IH, NoDup_cons. split.
      * intros [Hnodup Hnot]. split; [split; [| done] |].
        -- intros (other & Heq & Hother)%list_elem_of_fmap.
           apply (Hnot other Hother). rewrite <- Heq.
           apply elem_of_app. right. by apply list_elem_of_singleton.
        -- intros other [-> | Hother]%elem_of_cons; [done |].
           specialize (Hnot other Hother).
           intros Hseen. apply Hnot, elem_of_app. by left.
      * intros [[Hfirst Hnodup] Hnot]. split; [done |].
        intros other Hother [Hseen | Hsame%list_elem_of_singleton]%elem_of_app.
        -- apply (Hnot other); [by right | done].
        -- apply Hfirst. rewrite <- Hsame. by apply list_elem_of_fmap_2.
Qed.

(** X16.  [hasRepeatedFilenames] returns [false] exactly when no two files
    have the same name, a file without a name counting as one named by the
    empty string; so also for no array and for the empty array. *)
Theorem hasRepeatedFilenames_false_iff_distinct instant
    (files : Nullable (list File)) :
  hasRepeatedFilenames instant files = None
  ↔ NoDup (file_name <$> array_of files).
Proof.
  unfold hasRepeatedFilenames.
  destruct (missing_or_empty files) eqn:Hempty.
  - assert (array_of files = []) as ->.
    { destruct files as [| | [|? ?]]; done. }
    split; [intros _; constructor | done].
  - rewrite repeated_after_none. split; [by intros [? _] |].
    intros Hnodup. split; [done |]. by intros ? _ ?%elem_of_nil.
Qed.

Lemma repeated_after_some instant files : ∀ seen message,
  repeated_after instant seen files = Some message →
  ∃ before file after,
    files = before ++ file :: after
    ∧ message = instant (file_name file)
    ∧ file_name file ∈ seen ++ (file_name <$> before)
    ∧ repeated_after instant seen before = None.
Proof.
  induction files as [|file rest IH]; intros seen message; [done |]. cbn.
  case_bool_decide as Hin.
  - intros [= <-]. exists [], file, rest. cbn. rewrite app_nil_r. done.
  - intros (before & dup & after & -> & -> & Hdup & Hnone)%IH.
    exists (file :: before), dup, after. cbn.
    rewrite bool_decide_eq_false_2 by done.
    split; [done |]. split; [done |]. split; [| done].
    rewrite <- app_assoc in Hdup. done.
Qed.

(** X17.  When [hasRepeatedFilenames] returns a message, it is the message
    for the name of the first file whose name was already that of a file
    before it; the files before that one have names that are all
    distinct. *)
Theorem hasRepeatedFilenames_reports_first_repeat instant
    (files : Nullable (list File)) message :
  hasRepeatedFilenames instant files = Some message →
  ∃ before file after,
    array_of files = before ++ file :: after
    ∧ message = instant (file_name file)
    ∧ file_name file ∈ file_name <$> before
    ∧ NoDup (file_name <$> before).
Proof.
  unfold hasRepeatedFilenames.
  destruct (missing_or_empty files); [done |].
  intros (before & file & after & Hfiles & Hmessage & Hin & Hnone)%repeated_after_some.
  exists before, file, after. repeat split; try done.
  by apply repeated_after_none in Hnone as [Hnodup _].
Qed.

Lemma hasRepeatedFilenames_reports_first_repeat_witness :
  ∃ before file after,
    array_of (Value [FileEntry "a.pdf"; WSExternalFile None;
                     WSExternalFile (Some "a.pdf"); FileEntry ""])
    = before ++ file :: after
    ∧ "exists: a.pdf" = String.append "exists: " (file_name file)
    ∧ file_name file ∈ file_name <$> before
    ∧ NoDup (file_name <$> before).
Proof.
  apply (hasRepeatedFilenames_reports_first_repeat (String.append "exists: ")
           (Value [FileEntry "a.pdf"; WSExternalFile None;
                   WSExternalFile (Some "a.pdf"); FileEntry ""])
           "exists: a.pdf").
  reflexivity.
Defined.

Lemma indexOfRegexp_from_spec regex (array : list string) : ∀ k,
  (0 ≤ k)%Z →
  let found := List.filter (λ entry, has_matches (regex entry)) array in
  let i := indexOfRegexp_from k array regex in
  (i = (-1)%Z ∧ found = []
   ∧ Forall (λ entry, has_matches (regex entry) = false) array)
  ∨ ((k ≤ i)%Z
     ∧ ∃ entry,
         array !! Z.to_nat (i - k) = Some entry
         ∧ has_matches (regex entry) = true
         ∧ head found = Some entry
         ∧ Forall (λ entry, has_matches (regex entry) = false)
             (take (Z.to_nat (i - k)) array)).
Proof.
  induction array as [|entry rest IH]; intros k Hk; cbn.
  - left. done.
  - destruct (has_matches (regex entry)) eqn:Hentry.
    + right. split; [lia |]. exists entry.
      replace (Z.to_nat (k - k)) with 0%nat by lia. done.
    + destruct (IH (k + 1)%Z ltac:(lia)) as [(-> & -> & Hall) | (Hle & e & Hi & He & Hhead & Hbefore)].
      * left. split; [done |]. split; [done |]. by constructor.
      * right. split; [lia |]. exists e.
        replace (Z.to_nat (indexOfRegexp_from (k + 1) rest regex - k))
          with (S (Z.to_nat (indexOfRegexp_from (k + 1) rest regex - (k + 1)))) by lia.
        cbn. split; [done |]. split; [done |]. split; [done |]. by constructor.
Qed.

(** X18.  [indexOfRegexp] returns -1 exactly when no string of the array
    matches (so for no array and for the empty one), and exactly when
    [filterByRegexp] returns the empty array. *)
Theorem indexOfRegexp_minus_one_iff_no_match (array : Nullable (list string)) regex :
  (indexOfRegexp array regex = (-1)%Z
   ↔ Forall (λ entry, has_matches (regex entry) = false) (array_of array))
  ∧ (indexOfRegexp array regex = (-1)%Z ↔ filterByRegexp array regex = []).
Proof.
  unfold indexOfRegexp, filterByRegexp.
  destruct (missing_or_empty array) eqn:Hempty.
  - assert (array_of array = []) as ->.
    { destruct array as [| | [|? ?]]; done. }
    done.
  - destruct (indexOfRegexp_from_spec regex (array_of array) 0 ltac:(lia))
      as [(Hi & Hfound & Hall) | (Hle & e & Hi & He & Hhead & Hbefore)].
    + rewrite Hi, Hfound. done.
    + split; (split; [lia |]).
      * intros Hall. rewrite Forall_lookup in Hall.
        specialize (Hall _ _ Hi). cbn in Hall. congruence.
      * intros Hfound. rewrite Hfound in Hhead. done.
Qed.

(** X19.  Any other result of [indexOfRegexp] is the index of a string that
    matches, with no string that matches before it: the first of the strings
    that [filterByRegexp] returns. *)
Theorem indexOfRegexp_first_match (array : Nullable (list string)) regex :
  indexOfRegexp array regex ≠ (-1)%Z →
  (0 ≤ indexOfRegexp array regex)%Z
  ∧ ∃ entry,
      array_of array !! Z.to_nat (indexOfRegexp array regex) = Some entry
      ∧ has_matches (regex entry) = true
      ∧ head (filterByRegexp array regex) = Some entry
      ∧ Forall (λ entry, has_matches (regex entry) = false)
          (take (Z.to_nat (indexOfRegexp array regex)) (array_of array)).
Proof.
  unfold indexOfRegexp, filterByRegexp.
  destruct (missing_or_empty array); [done |].
  destruct (indexOfRegexp_from_spec regex (array_of array) 0 ltac:(lia))
    as [(Hi & _) | (Hle & e & Hi & He & Hhead & Hbefore)]; [done |].
  intros _. split; [done |]. exists e.
  rewrite Z.sub_0_r in Hi, Hbefore. done.
Qed.

Lemma indexOfRegexp_first_match_witness :
  let regex : RegExp := λ entry, if String.prefix "mod_" entry then Some [entry] else None in
  let array := Value ["core"; "mod_quiz"; "mod_forum"] in
  (0 ≤ indexOfRegexp array regex)%Z
  ∧ ∃ entry,
      array_of array !! Z.to_nat (indexOfRegexp array regex) = Some entry
      ∧ has_matches (regex entry) = true
      ∧ head (filterByRegexp array regex) = Some entry
      ∧ Forall (λ entry, has_matches (regex entry) = false)
          (take (Z.to_nat (indexOfRegexp array regex)) (array_of array)).
Proof.
  apply (indexOfRegexp_first_match
           (Value ["core"; "mod_quiz"; "mod_forum"])
           (λ entry, if String.prefix "mod_" entry then Some [entry] else None)).
  vm_compute. discriminate.
Defined.

End MoreLists.

(** ** uniqueArray, mergeArraysWithoutDuplicates, sumFileSizes *)

Section MoreArrays.

Implicit Types (unique : gset string) (array : list string) (entry x : string).

Lemma in_object_true unique x :
  in_object unique x = true ↔ x ∈ unique ∨ inherited x = true.
Proof.
  unfold in_object. rewrite orb_true_iff, bool_decide_eq_true. done.
Qed.

Lemma in_object_set_key unique entry x :
  in_object unique entry = false →
  in_object (set_key unique entry) x = true
  ↔ x = entry ∨ in_object unique x = true.
Proof.
  intros Hentry.
  assert (entry ≠ "__proto__") as Hproto.
  { intros ->. unfold in_object in Hentry.
    apply orb_false_iff in Hentry as [_ Hinherited]. by vm_compute in Hinherited. }
  unfold set_key. rewrite bool_decide_eq_false_2 by done.
  rewrite !in_object_true, elem_of_union, elem_of_singleton. tauto.
Qed.

Lemma uniqueArray_filter_spec array : ∀ unique,
  NoDup (uniqueArray_filter unique array)
  ∧ sublist (uniqueArray_filter unique array) array
  ∧ ∀ x, x ∈ uniqueArray_filter unique array
         ↔ x ∈ array ∧ in_object unique x = false.
Proof.
  induction array as [|entry rest IH]; intros unique; cbn.
  - split; [constructor |]. split; [constructor |].
    intros x. rewrite elem_of_nil. tauto.
  - destruct (in_object unique entry) eqn:Hentry.
    + destruct (IH unique) as (Hnodup & Hsub & Hin).
      split; [done |]. split; [by constructor |].
      intros x. rewrite Hin, elem_of_cons. split; [tauto |].
      intros [[-> | Hx] Hfalse]; [congruence | done].
    + destruct (IH (set_key unique entry)) as (Hnodup & Hsub & Hin).
      split; [| split; [by constructor |]].
      * apply NoDup_cons. split; [| done].
        intros [_ Hfalse]%Hin.
        assert (in_object (set_key unique entry) entry = true) as Htrue
          by (apply in_object_set_key; [done | by left]).
        congruence.
      * intros x. rewrite !elem_of_cons, Hin. split.
        -- intros [-> | [Hx Hfalse]]; [by split; [left |] |].
           split; [by right |].
           destruct (in_object unique x) eqn:Hux; [| done].
           assert (in_object (set_key unique entry) x = true) as Htrue
             by (apply in_object_set_key; [done | by right]).
           congruence.
        -- intros [[-> | Hx] Hfalse]; [by left |].
           destruct (decide (x = entry)) as [-> | Hne]; [by left |].
           right. split; [done |].
           destruct (in_object (set_key unique entry) x) eqn:Hsx; [| done].
           apply in_object_set_key in Hsx as [? | ?]; [done | congruence | done].
Qed.

(** X20.  The array [uniqueArray] returns has no string twice; it is made
    of strings of the given array in their order; and it has every string of
    that array except those that name a member of [Object.prototype]
    ([constructor], [toString], ...), which [value in unique] takes for
    duplicates from the start. *)
Theorem uniqueArray_distinct_in_order array :
  NoDup (uniqueArray array)
  ∧ sublist (uniqueArray array) array
  ∧ ∀ x, x ∈ uniqueArray array ↔ x ∈ array ∧ inherited x = false.
Proof.
  destruct (uniqueArray_filter_spec array ∅) as (Hnodup & Hsub & Hin).
  split; [done |]. split; [done |].
  intros x. rewrite (Hin x). unfold in_object.
  rewrite bool_decide_eq_false_2 by set_solver. done.
Qed.

Lemma uniqueArray_filter_id array : ∀ unique,
  NoDup array →
  (∀ x, x ∈ array → in_object unique x = false) →
  uniqueArray_filter unique array = array.
Proof.
  induction array as [|entry rest IH]; intros unique Hnodup Hnew; [done |]. cbn.
  apply NoDup_cons in Hnodup as [Hentry Hnodup].
  rewrite (Hnew entry) by (by left). f_equal.
  apply IH; [done |]. intros x Hx.
  destruct (in_object (set_key unique entry) x) eqn:Hsx; [| done].
  apply in_object_set_key in Hsx as [-> | Hux]; [done | | apply Hnew; by left].
  rewrite (Hnew x) in Hux by (by right). done.
Qed.

(** X21.  An array without repeats and without names of members of
    [Object.prototype] is returned as it is; so [uniqueArray] applied to its
    own result changes nothing. *)
Theorem uniqueArray_idempotent array :
  (NoDup array → Forall (λ x, inherited x = false) array → uniqueArray array = array)
  ∧ uniqueArray (uniqueArray array) = uniqueArray array.
Proof.
  assert (∀ l, NoDup l → Forall (λ x, inherited x = false) l → uniqueArray l = l)
    as Hid.
  { intros l Hnodup Hall. apply uniqueArray_filter_id; [done |].
    intros x Hx. rewrite Forall_forall in Hall. unfold in_object.
    rewrite (Hall x Hx), bool_decide_eq_false_2 by set_solver. done. }
  split; [apply Hid |].
  destruct (uniqueArray_filter_spec array ∅) as (Hnodup & _ & Hin).
  apply Hid; [done |]. apply Forall_forall. intros x [_ Hx]%Hin.
  unfold in_object in Hx. by apply orb_false_iff in Hx as [_ ?].
Qed.

Lemma uniqueArray_idempotent_witness :
  uniqueArray ["b"; "a"; "c"] = ["b"; "a"; "c"].
Proof.
  apply (proj1 (uniqueArray_idempotent ["b"; "a"; "c"])).
  - apply (bool_decide_unpack _). by vm_compute.
  - repeat constructor.
Defined.

Lemma uniqueArray_filter_app array1 : ∀ unique array2,
  uniqueArray_filter unique (array1 ++ array2)
  = uniqueArray_filter unique array1
    ++ uniqueArray_filter (seen_keys unique array1) array2.
Proof.
  induction array1 as [|entry rest IH]; intros unique array2; [done |]. cbn.
  destruct (in_object unique entry); [apply IH |]. cbn. f_equal. apply IH.
Qed.

Lemma in_object_seen_keys array : ∀ unique x,
  in_object (seen_keys unique array) x = true
  ↔ in_object unique x = true ∨ x ∈ array.
Proof.
  induction array as [|entry rest IH]; intros unique x; cbn.
  - rewrite elem_of_nil. tauto.
  - unfold seen_keys in IH. rewrite IH, elem_of_cons.
    destruct (in_object unique entry) eqn:Hentry.
    + split; [tauto |]. intros [? | [-> | ?]]; tauto.
    + rewrite in_object_set_key by done. tauto.
Qed.

(** X22.  [mergeArraysWithoutDuplicates] returns what [uniqueArray] returns
    for the first array, followed by the strings of the second array that
    are not in the first (and do not name a member of [Object.prototype]),
    each once. *)
Theorem mergeArraysWithoutDuplicates_keeps_first (array1 array2 : list string) :
  ∃ added,
    mergeArraysWithoutDuplicates array1 array2 = uniqueArray array1 ++ added
    ∧ NoDup added
    ∧ sublist added array2
    ∧ ∀ x, x ∈ added ↔ x ∈ array2 ∧ (x ∉ array1) ∧ inherited x = false.
Proof.
  exists (uniqueArray_filter (seen_keys ∅ array1) array2).
  unfold mergeArraysWithoutDuplicates, uniqueArray.
  rewrite uniqueArray_filter_app. split; [done |].
  destruct (uniqueArray_filter_spec array2 (seen_keys ∅ array1)) as (Hnodup & Hsub & Hin).
  split; [done |]. split; [done |].
  intros x. rewrite (Hin x).
  destruct (in_object (seen_keys ∅ array1) x) eqn:Hseen.
  - apply in_object_seen_keys in Hseen. split; [intros [_ ?]; done |].
    intros (_ & Hnot & Hinh). destruct Hseen as [Hempty | ?]; [| done].
    apply in_object_true in Hempty as [? | ?]; [set_solver | congruence].
  - split; [| tauto]. intros [Hx _]. split; [done |].
    assert (¬ (in_object ∅ x = true ∨ x ∈ array1)) as Hnot.
    { intros H. apply in_object_seen_keys in H. congruence. }
    split; [tauto |].
    destruct (inherited x) eqn:Hinh; [| done].
    exfalso. apply Hnot. left. apply in_object_true. by right.
Qed.

Lemma sumFileSizes_from (files : list (option Z)) : ∀ result,
  let sum :=
    fold_left
      (λ result filesize,
         match filesize with
         | None => {| sum_size := sum_size result; sum_total := false |}
         | Some n => {| sum_size := (sum_size result + n)%Z; sum_total := sum_total result |}
         end)
      files result in
  sum_size sum = (sum_size result + known_sizes files)%Z
  ∧ sum_total sum = sum_total result && forallb (λ f, bool_decide (is_Some f)) files.
Proof.
  induction files as [|[n |] rest IH]; intros result; cbn.
  - split; [lia | by rewrite andb_true_r].
  - destruct (IH {| sum_size := (sum_size result + n)%Z; sum_total := sum_total result |})
      as [-> ->]. cbn. split; [lia | done].
  - destruct (IH {| sum_size := sum_size result; sum_total := false |}) as [-> ->].
    cbn. split; [lia | by rewrite andb_false_r].
Qed.


End MoreArrays.
